(** * Vector clocks: a shallow embedding of the two lab implementations

    [vector_clock_process.py] holds the classes [VectorClock] and
    [VectorClockProcess]; [vector_process.py] holds the XML-RPC variant of
    the clock.  Python dictionaries are finite maps ([gmap]), the counters are
    Python integers ([Z]), and a method that mutates [self] is a function from
    the object's state to its new state and an outcome, which is either a
    returned value or a raised exception.  A raised exception keeps the state
    as it was when the exception left the method. *)

From stdpp Require Import gmap strings list fin_maps sorting.
From Stdlib Require Import ZArith Lia.

Local Open Scope Z_scope.

(** ** Python values, exceptions and the state-and-exception monad *)

(** What a counter slot of a received mapping can hold: an integer, or a
    value that is not a number. *)
Inductive pyval : Type :=
  | PyInt (z : Z)
  | PyStr (s : string)
  | PyNone.

Inductive exn : Type :=
  | KeyError
  | TypeError.

Inductive outcome (A : Type) : Type :=
  | Return (a : A)
  | Raise (e : exn).
Arguments Return {A} a.
Arguments Raise {A} e.

#[global] Instance pyval_eq_dec : EqDecision pyval.
Proof. solve_decision. Defined.
#[global] Instance exn_eq_dec : EqDecision exn.
Proof. solve_decision. Defined.

(** A method body: it reads and writes the state [S] and returns or raises. *)
Definition M (S A : Type) : Type := S → S * outcome A.

#[global] Instance M_ret {S} : MRet (M S) := λ A a s, (s, Return a).
#[global] Instance M_bind {S} : MBind (M S) := λ A B k m s,
  match m s with
  | (s', Return a) => k a s'
  | (s', Raise e) => (s', Raise e)
  end.
Definition raise {S A} (e : exn) : M S A := λ s, (s, Raise e).
Definition gets {S A} (f : S → A) : M S A := λ s, (s, Return (f s)).
Definition modify {S} (f : S → S) : M S unit := λ s, (f s, Return tt).
Definition lift_outcome {S A} (o : outcome A) : M S A := λ s, (s, o).

(** [max(a, b)] with an integer first argument: Python compares the two, and
    comparing an [int] with a [str] or with [None] raises [TypeError]. *)
Definition py_max (a : Z) (b : pyval) : outcome Z :=
  match b with
  | PyInt z => Return (Z.max a z)
  | PyStr _ | PyNone => Raise TypeError
  end.

(** [d.get(k, 0)] on a dictionary of integers. *)
Definition get0 `{Countable K} (d : gmap K Z) (k : K) : Z := default 0 (d !! k).

(** [d.get(k, 0)] on a received dictionary. *)
Definition pyget0 `{Countable K} (d : gmap K pyval) (k : K) : pyval :=
  default (PyInt 0) (d !! k).

(** ** [vector_clock_process.py], class [VectorClock] *)

Module VectorClock.
Section defs.
Context `{Countable K}.

(** Iterating over a Python [set] visits its elements in an order the
    language leaves open; [set_iter] is that order. *)
Variable set_iter : gset K → list K.

Record t : Type := mk {
  process_id : K;
  clock : gmap K Z
}.

Definition set_clock (c : gmap K Z) (self : t) : t :=
  mk (process_id self) c.

(** [__init__(self, process_id, initial_clock=None)]: an absent or empty
    [initial_clock] gives the empty dictionary, any other one is copied;
    the owner's entry is added with value 0 when it is missing. *)
Definition init (pid : K) (initial_clock : option (gmap K Z)) : t :=
  let c := match initial_clock with
           | Some ic => if decide (ic = ∅) then ∅ else ic
           | None => ∅
           end in
  mk pid (if decide (pid ∈ dom c) then c else <[pid := 0]> c).

(** [increment]: [self.clock[self.process_id] += 1], which raises
    [KeyError] when the entry is missing, then returns the new value. *)
Definition increment : M t Z := λ self,
  match clock self !! process_id self with
  | Some v =>
      (set_clock (<[process_id self := v + 1]> (clock self)) self,
       Return (v + 1))
  | None => (self, Raise KeyError)
  end.

(** The body of the [for] loop of [update], over the keys still to visit. *)
Fixpoint update_loop (received_clock : gmap K pyval) (ps : list K)
  : M t unit :=
  match ps with
  | [] => mret tt
  | pid :: ps' =>
      local_val ← gets (λ self, get0 (clock self) pid);
      let remote_val := pyget0 received_clock pid in
      v ← lift_outcome (py_max local_val remote_val);
      modify (λ self, set_clock (<[pid := v]> (clock self)) self);;
      update_loop received_clock ps'
  end.

(** The first statements of [update], up to and including the [for] loop:
    the merge before the owner's increment. *)
Definition merge (received_clock : gmap K pyval) : M t unit :=
  all_processes ← gets (λ self, dom (clock self) ∪ dom received_clock);
  update_loop received_clock (set_iter all_processes).

(** [update(self, received_clock)]: the merge, then [self.increment()]. *)
Definition update (received_clock : gmap K pyval) : M t unit :=
  merge received_clock;;
  increment;;
  mret tt.

(** One round of the loop of [compare] on the two flags
    [(less_than_all, greater_than_all)]. *)
Definition compare_step (c other_clock : gmap K Z)
    (flags : bool * bool) (pid : K) : bool * bool :=
  let local_val := get0 c pid in
  let other_val := get0 other_clock pid in
  if local_val <? other_val then (flags.1, false)
  else if local_val >? other_val then (false, flags.2)
  else flags.

(** [compare(self, other_clock)]: [None] is Python's [None], and
    [Some (-1)], [Some 0], [Some 1] are the three integers. *)
Definition compare (other_clock : gmap K Z) (self : t) : option Z :=
  if decide (clock self = other_clock) then None
  else
    let all_processes := dom (clock self) ∪ dom other_clock in
    let flags := foldl (compare_step (clock self) other_clock)
                       (true, true) (set_iter all_processes) in
    let less_than_all := flags.1 in
    let greater_than_all := flags.2 in
    if less_than_all && negb greater_than_all then Some (-1)
    else if greater_than_all && negb less_than_all then Some 1
    else Some 0.

Definition happens_before (other_clock : gmap K Z) (self : t) : bool :=
  bool_decide (compare other_clock self = Some (-1)).

Definition happens_after (other_clock : gmap K Z) (self : t) : bool :=
  bool_decide (compare other_clock self = Some 1).

Definition is_concurrent (other_clock : gmap K Z) (self : t) : bool :=
  bool_decide (compare other_clock self = Some 0).

(** [get_clock]: a copy of the dictionary. *)
Definition get_clock (self : t) : gmap K Z := clock self.

(** The mutating calls on one clock, and the state a sequence of them
    leaves; a call that raises leaves the state it had reached. *)
Inductive call : Type :=
  | Increment
  | Update (received_clock : gmap K pyval).

Definition step (self : t) (c : call) : t :=
  match c with
  | Increment => (increment self).1
  | Update received_clock => (update received_clock self).1
  end.

Definition run (cs : list call) (self : t) : t := foldl step self cs.
End defs.
Arguments t K {_ _}.
Arguments call K {_ _}.
End VectorClock.

(** ** [vector_clock_process.py], class [VectorClockProcess] *)

(** [d[key]] on a dictionary with a fixed set of string keys, a field being
    [None] when the key is missing. *)
Definition getitem {S A} (field : option A) : M S A :=
  match field with
  | Some a => mret a
  | None => raise KeyError
  end.

Module VectorClockProcess.
Section defs.
Context `{Countable K}.
Variable set_iter : gset K → list K.

(** A message is a dictionary with the keys ['content'], ['sender'],
    ['vector_clock'] and ['target'].  A message that arrives may lack a key
    ([None] here), and the counters of its clock may be any value.
    [msg_target] is [None] for Python's [None]. *)
Record Message : Type := mk_message {
  msg_content : option string;
  msg_sender : option K;
  msg_vector_clock : option (gmap K pyval);
  msg_target : option K
}.

(** An entry of [message_log]: the keys ['message'], ['local_clock'] and
    ['timestamp']. *)
Record LogEntry : Type := mk_entry {
  log_message : Message;
  log_local_clock : gmap K Z;
  log_timestamp : nat
}.

Record t : Type := mk {
  process_id : K;
  vector_clock : VectorClock.t K;
  message_log : list LogEntry
}.

Definition init (pid : K) : t := mk pid (VectorClock.init pid None) [].

(** A method of [self.vector_clock] called from a method of the process. *)
Definition on_clock {A} (m : M (VectorClock.t K) A) : M t A := λ self,
  let '(vc, o) := m (vector_clock self) in
  (mk (process_id self) vc (message_log self), o).

(** [send_message(self, message_content, target_process=None)]. *)
Definition send_message (message_content : string)
    (target_process : option K) : M t Message :=
  on_clock VectorClock.increment;;
  message ← gets (λ self,
    {| msg_content := Some message_content;
       msg_sender := Some (process_id self);
       msg_vector_clock :=
         Some (PyInt <$> VectorClock.get_clock (vector_clock self));
       msg_target := target_process |});
  mret message.

(** [receive_message(self, message)].  The two [print] calls at its start
    read [message['content']] and [message['vector_clock']]. *)
Definition receive_message (message : Message) : M t bool :=
  _ ← getitem (msg_content message);
  received_clock ← getitem (msg_vector_clock message);
  on_clock (VectorClock.update set_iter received_clock);;
  modify (λ self,
    mk (process_id self) (vector_clock self)
       (message_log self ++
          [ {| log_message := message;
               log_local_clock := VectorClock.get_clock (vector_clock self);
               log_timestamp := length (message_log self) |} ]));;
  mret true.

(** [local_event(self)]. *)
Definition local_event : M t unit :=
  on_clock VectorClock.increment;;
  mret tt.

Definition get_clock_state (self : t) : gmap K Z :=
  VectorClock.get_clock (vector_clock self).

Definition compare_with_other (other_clock : gmap K Z) (self : t)
  : option Z :=
  VectorClock.compare set_iter other_clock (vector_clock self).

(** The calls a driver can make on one process, and the state they leave. *)
Inductive call : Type :=
  | LocalEvent
  | SendMessage (message_content : string) (target_process : option K)
  | ReceiveMessage (message : Message).

Definition step (self : t) (c : call) : t :=
  match c with
  | LocalEvent => (local_event self).1
  | SendMessage mc tp => (send_message mc tp self).1
  | ReceiveMessage m => (receive_message m self).1
  end.

Definition run (cs : list call) (self : t) : t := foldl step self cs.
End defs.
Arguments Message K {_ _}.
Arguments LogEntry K {_ _}.
Arguments t K {_ _}.
Arguments call K {_ _}.
End VectorClockProcess.

(** ** [vector_process.py], class [VectorClock] (the XML-RPC variant)

    The lock, the server object and the two threads are left out; each method
    body below is what runs between taking and releasing [self.lock]. *)

Module VectorProcess.
Section defs.
Context `{Countable K}.

Record t : Type := mk {
  port : K;
  clock : gmap K Z
}.

(** The dictionary handed over XML-RPC: keys ['sender_port'] and ['clock'].
    The clock is listed in the order in which [items()] yields it. *)
Record Message : Type := mk_message {
  msg_sender_port : option K;
  msg_clock : option (list (K * pyval))
}.

Definition set_clock (c : gmap K Z) (self : t) : t := mk (port self) c.

(** [__init__(self, port, peers=None)]: every known node starts at 0. *)
Definition init (p : K) (peers : option (list K)) : t :=
  let peers := default [] peers in
  let nodes : gset K := list_to_set peers ∪ {[p]} in
  mk p (gset_to_gmap 0 nodes).

(** The [for pid, val in incoming.items()] loop of [receive_message]. *)
Fixpoint merge_incoming (incoming : list (K * pyval)) : M t unit :=
  match incoming with
  | [] => mret tt
  | (pid, val) :: rest =>
      local_val ← gets (λ self, get0 (clock self) pid);
      v ← lift_outcome (py_max local_val val);
      modify (λ self, set_clock (<[pid := v]> (clock self)) self);;
      merge_incoming rest
  end.

(** [self.clock[self.port] = self.clock.get(self.port, 0) + 1]. *)
Definition bump_own : M t unit :=
  modify (λ self,
    set_clock (<[port self := get0 (clock self) (port self) + 1]>
                 (clock self)) self).

(** [receive_message(self, message)]. *)
Definition receive_message (message : Message) : M t bool :=
  let incoming := default [] (msg_clock message) in
  merge_incoming incoming;;
  bump_own;;
  mret true.

(** One round of the loop of [_increment_clock]. *)
Definition increment_clock : M t unit := bump_own.

(** [send_message(self, remote_port)], up to the remote call: the message
    that is handed to the peer. *)
Definition send_message (remote_port : K) : M t Message :=
  message ← gets (λ self,
    {| msg_sender_port := Some (port self);
       msg_clock := Some (map_to_list (PyInt <$> clock self)) |});
  mret message.

Inductive call : Type :=
  | Tick
  | Send (remote_port : K)
  | Receive (message : Message).

Definition step (self : t) (c : call) : t :=
  match c with
  | Tick => (increment_clock self).1
  | Send rp => (send_message rp self).1
  | Receive m => (receive_message m self).1
  end.

Definition run (cs : list call) (self : t) : t := foldl step self cs.
End defs.
Arguments t K {_ _}.
Arguments Message K : clear implicits.
Arguments call K : clear implicits.
End VectorProcess.

(** ** Dictionary objects and references

    The state-passing model above gives every use of a dictionary its own
    value.  To say that a snapshot is a copy and not a second name for the
    clock, the dictionaries that a [VectorClockProcess] creates are placed on
    a heap here: [self.vector_clock.clock] is a reference, an assignment
    [self.clock[k] = v] writes through it, and [get_clock()] and [copy()]
    allocate.  A received message is a value: [receive_message] only reads
    it. *)

Module Store.
Section defs.
Context `{Countable K}.
Variable set_iter : gset K → list K.

Definition loc : Type := positive.

(** The attributes of a process, bound once in [__init__]: its id and the
    reference held in [self.vector_clock.clock]. *)
Record t : Type := mk {
  process_id : K;
  clock : loc
}.

(** A message built by [send_message]; ['vector_clock'] is a reference. *)
Record Message : Type := mk_message {
  msg_content : string;
  msg_sender : K;
  msg_vector_clock : loc;
  msg_target : option K
}.

Record LogEntry : Type := mk_entry {
  log_message : VectorClockProcess.Message K;
  log_local_clock : loc;
  log_timestamp : nat
}.

(** What the methods change: the dictionary objects and [message_log]. *)
Record state : Type := mk_state {
  heap : gmap loc (gmap K Z);
  message_log : list LogEntry
}.

Definition alloc (d : gmap K Z) : M state loc := λ s,
  let l := fresh (dom (heap s)) in
  (mk_state (<[l := d]> (heap s)) (message_log s), Return l).

Definition read (l : loc) : M state (gmap K Z) :=
  gets (λ s, heap s !!! l).

(** [d.copy()]. *)
Definition dict_copy (l : loc) : M state loc :=
  d ← read l;
  alloc d.

(** A method of the class [VectorClock] run on the clock object: it reads
    and writes the dictionary behind [clock self]. *)
Definition on_dict {A} (self : t) (m : M (VectorClock.t K) A)
  : M state A := λ s,
  let '(vc, o) :=
    m (VectorClock.mk (process_id self) (heap s !!! clock self)) in
  (mk_state (<[clock self := VectorClock.clock vc]> (heap s))
            (message_log s), o).

Definition get_clock (self : t) : M state loc := dict_copy (clock self).

Definition init (pid : K) : t * state :=
  (mk pid 1%positive,
   mk_state {[ 1%positive := VectorClock.clock (VectorClock.init pid None) ]}
            []).

Definition send_message (self : t) (message_content : string)
    (target_process : option K) : M state Message :=
  on_dict self VectorClock.increment;;
  snapshot ← get_clock self;
  mret {| msg_content := message_content;
          msg_sender := process_id self;
          msg_vector_clock := snapshot;
          msg_target := target_process |}.

Definition receive_message (self : t)
    (message : VectorClockProcess.Message K) : M state bool :=
  _ ← getitem (VectorClockProcess.msg_content message);
  received_clock ← getitem (VectorClockProcess.msg_vector_clock message);
  on_dict self (VectorClock.update set_iter received_clock);;
  snapshot ← get_clock self;
  local_clock ← dict_copy snapshot;
  modify (λ s,
    mk_state (heap s)
      (message_log s ++
         [ {| log_message := message;
              log_local_clock := local_clock;
              log_timestamp := length (message_log s) |} ]));;
  mret true.

Definition local_event (self : t) : M state unit :=
  on_dict self VectorClock.increment;;
  mret tt.

Definition step (self : t) (s : state) (c : VectorClockProcess.call K)
  : state :=
  match c with
  | VectorClockProcess.LocalEvent => (local_event self s).1
  | VectorClockProcess.SendMessage mc tp => (send_message self mc tp s).1
  | VectorClockProcess.ReceiveMessage m => (receive_message self m s).1
  end.

Definition run (self : t) (cs : list (VectorClockProcess.call K))
    (s : state) : state :=
  foldl (step self) s cs.

(** Reading through the references gives back the state-passing view. *)
Definition erase_entry (s : state) (e : LogEntry)
  : VectorClockProcess.LogEntry K :=
  {| VectorClockProcess.log_message := log_message e;
     VectorClockProcess.log_local_clock := heap s !!! log_local_clock e;
     VectorClockProcess.log_timestamp := log_timestamp e |}.

Definition erase (self : t) (s : state) : VectorClockProcess.t K :=
  VectorClockProcess.mk (process_id self)
    (VectorClock.mk (process_id self) (heap s !!! clock self))
    (erase_entry s <$> message_log s).
End defs.
Arguments t K : clear implicits.
Arguments Message K : clear implicits.
Arguments LogEntry K {_ _}.
Arguments state K {_ _}.
End Store.

(** ** The properties, in the words of the specification *)

Module Spec.
Section defs.
Context `{Countable K}.

(** The four results of [compare]. *)
Definition BEFORE : option Z := Some (-1).
Definition AFTER : option Z := Some 1.
Definition CONCURRENT : option Z := Some 0.
Definition EQUAL : option Z := None.

(** [m] is the merge of [l] and [r]: its keys are the keys of either, and
    every entry is the larger of the two, a missing one counting as 0. *)
Definition is_merge (l r m : gmap K Z) : Prop :=
  dom m = dom l ∪ dom r ∧
  ∀ k, k ∈ dom l ∪ dom r → m !! k = Some (Z.max (get0 l k) (get0 r k)).

(** [a <= b] pointwise over the union of the keys, missing keys read as 0. *)
Definition pointwise_le (a b : gmap K Z) : Prop :=
  ∀ k, k ∈ dom a ∪ dom b → get0 a k ≤ get0 b k.

(** The two mappings read the same at every key of the union. *)
Definition pointwise_eq (a b : gmap K Z) : Prop :=
  ∀ k, k ∈ dom a ∪ dom b → get0 a k = get0 b k.

(** No counter is negative. *)
Definition nonneg (c : gmap K Z) : Prop := map_Forall (λ _ v, 0 ≤ v) c.

(** [b] has every key of [a], with a value at least as large. *)
Definition grows (a b : gmap K Z) : Prop :=
  ∀ k v, a !! k = Some v → ∃ v', b !! k = Some v' ∧ v ≤ v'.

(** What a call may change on a clock: the owner stays, the owner's entry
    stays present, counters stay non-negative, and no counter goes down. *)
Definition keeps (self self' : VectorClock.t K) : Prop :=
  VectorClock.process_id self' = VectorClock.process_id self ∧
  (VectorClock.process_id self ∈ dom (VectorClock.clock self) →
   VectorClock.process_id self' ∈ dom (VectorClock.clock self')) ∧
  (nonneg (VectorClock.clock self) → nonneg (VectorClock.clock self')) ∧
  grows (VectorClock.clock self) (VectorClock.clock self').

(** Every entry of a log carries its own index. *)
Definition log_indexed (log : list (VectorClockProcess.LogEntry K)) : Prop :=
  ∀ i e, log !! i = Some e →
         VectorClockProcess.log_timestamp e = i.

(** An interrupted merge of [rc] into [c]: every entry of [c'] is the one
    of [c], or the larger of the two where the received one is an
    integer. *)
Definition partly_merged (c : gmap K Z) (rc : gmap K pyval)
    (c' : gmap K Z) : Prop :=
  ∀ k, c' !! k = c !! k ∨
       ∃ z, pyget0 rc k = PyInt z ∧ c' !! k = Some (Z.max (get0 c k) z).

(** What holds of the XML-RPC clock from [__init__] on: it has its own
    entry and no negative counter. *)
Definition rpc_inv (self : VectorProcess.t K) : Prop :=
  VectorProcess.port self ∈ dom (VectorProcess.clock self) ∧
  nonneg (VectorProcess.clock self).

(** The items of a received clock whose counters are all integers. *)
Definition int_items (r : list (K * Z)) : list (K * pyval) :=
  prod_map id PyInt <$> r.

(** [s'] extends [s] away from the clock of [self]: every dictionary
    object of [s] is still there, and all but the clock read the same. *)
Definition frames (self : Store.t K) (s s' : Store.state K) : Prop :=
  dom (Store.heap s) ⊆ dom (Store.heap s') ∧
  ∀ l, l ∈ dom (Store.heap s) → l ≠ Store.clock self →
       Store.heap s' !! l = Store.heap s !! l.

(** The clock object exists, and no logged snapshot is the clock itself. *)
Definition store_wf (self : Store.t K) (s : Store.state K) : Prop :=
  Store.clock self ∈ dom (Store.heap s) ∧
  ∀ e, e ∈ Store.message_log s →
       Store.log_local_clock e ∈ dom (Store.heap s) ∧
       Store.log_local_clock e ≠ Store.clock self.

(** A message with its content and its clock, all counters integers. *)
Definition well_formed (m : VectorClockProcess.Message K) : Prop :=
  is_Some (VectorClockProcess.msg_content m) ∧
  ∃ r : gmap K Z, VectorClockProcess.msg_vector_clock m = Some (PyInt <$> r).

(** A counter that is not a number. *)
Definition non_numeric (v : pyval) : Prop :=
  match v with PyInt _ => False | _ => True end.

(** A message without its clock, or with a counter that is not a number. *)
Definition malformed (m : VectorClockProcess.Message K) : Prop :=
  match VectorClockProcess.msg_vector_clock m with
  | None => True
  | Some r => ∃ k v, r !! k = Some v ∧ non_numeric v
  end.

Definition rpc_malformed (m : VectorProcess.Message K) : Prop :=
  match VectorProcess.msg_clock m with
  | None => True
  | Some r => ∃ k v, (k, v) ∈ r ∧ non_numeric v
  end.

#[global] Instance pointwise_le_dec (a b : gmap K Z) :
  Decision (pointwise_le a b).
Proof.
  unfold pointwise_le. apply (set_Forall_dec (λ k, get0 a k ≤ get0 b k)).
Defined.

#[global] Instance pointwise_eq_dec (a b : gmap K Z) :
  Decision (pointwise_eq a b).
Proof.
  unfold pointwise_eq. apply (set_Forall_dec (λ k, get0 a k = get0 b k)).
Defined.

#[global] Instance nonneg_dec (c : gmap K Z) : Decision (nonneg c).
Proof. unfold nonneg. apply _. Defined.
End defs.
End Spec.

(** ** Concrete processes and messages *)

Module Demo.
(** The order in which CPython visits a set of small non-negative
    integers: ascending. *)
Definition ascending (s : gset Z) : list Z := merge_sort Z.le (elements s).

(** A process with id 2 and a message whose clock has a counter that is a
    string. *)
Definition process2 : VectorClockProcess.t Z := VectorClockProcess.init 2.

Definition bad_counter : VectorClockProcess.Message Z :=
  {| VectorClockProcess.msg_content := Some "hello";
     VectorClockProcess.msg_sender := Some 1;
     VectorClockProcess.msg_vector_clock :=
       Some {[ 1 := PyInt 5; 3 := PyStr "x" ]};
     VectorClockProcess.msg_target := Some 2 |}.

(** The node of the [__main__] block of [vector_process.py] after one
    internal event, and a message without its ['clock'] key. *)
Definition node8001 : VectorProcess.t Z :=
  VectorProcess.run [VectorProcess.Tick]
    (VectorProcess.init 8001 (Some [8001; 8002; 8003])).

Definition no_clock : VectorProcess.Message Z :=
  {| VectorProcess.msg_sender_port := Some 8002;
     VectorProcess.msg_clock := None |}.

(** The two clocks [{A: 1}] and [{A: 1, B: 0}]. *)
Definition clock_a : gmap string Z := {[ "A" := 1 ]}.
Definition clock_a_b0 : gmap string Z := {[ "A" := 1; "B" := 0 ]}.
End Demo.

(** ** Notions for whole runs *)

Module Run.
Section defs.
Context `{Countable K}.

(** The integer behind a counter, and whether a counter is one. *)
Definition unint (v : pyval) : Z :=
  match v with PyInt z => z | _ => 0 end.

Definition is_int (v : pyval) : bool :=
  match v with PyInt _ => true | _ => false end.

(** A message with its content and its clock, every counter an integer. *)
Definition acceptable (m : VectorClockProcess.Message K) : bool :=
  match VectorClockProcess.msg_content m,
        VectorClockProcess.msg_vector_clock m with
  | Some _, Some rc => bool_decide (map_Forall (λ _ v, is_int v = true) rc)
  | _, _ => false
  end.

(** The messages handed to [receive_message] in a sequence of calls. *)
Definition received (cs : list (VectorClockProcess.call K))
  : list (VectorClockProcess.Message K) :=
  omap (λ c, match c with
             | VectorClockProcess.ReceiveMessage m => Some m
             | _ => None
             end) cs.

Definition is_receive (c : VectorClockProcess.call K) : bool :=
  match c with
  | VectorClockProcess.ReceiveMessage _ => true
  | _ => false
  end.


(** [demo_vector_clocks()]: the three final clocks and the three
    comparisons it prints, or [None] if a call raised. *)
Definition demo_vector_clocks (set_iter : gset string → list string)
  : option ((gmap string Z * gmap string Z * gmap string Z) *
            (option Z * option Z * option Z)) :=
  let process_a := VectorClockProcess.init "A" in
  let process_b := VectorClockProcess.init "B" in
  let process_c := VectorClockProcess.init "C" in
  match VectorClockProcess.send_message "Hello from A" (Some "B") process_a
  with
  | (process_a, Return message1) =>
  match VectorClockProcess.receive_message set_iter message1 process_b with
  | (process_b, Return _) =>
  match VectorClockProcess.send_message "Hello from B" (Some "C") process_b
  with
  | (process_b, Return message2) =>
  match VectorClockProcess.receive_message set_iter message2 process_c with
  | (process_c, Return _) =>
  match VectorClockProcess.send_message "Second message from A" (Some "C")
          process_a with
  | (process_a, Return message3) =>
  match VectorClockProcess.receive_message set_iter message3 process_c with
  | (process_c, Return _) =>
  match VectorClockProcess.local_event process_b with
  | (process_b, Return _) =>
      Some
        ((VectorClockProcess.get_clock_state process_a,
          VectorClockProcess.get_clock_state process_b,
          VectorClockProcess.get_clock_state process_c),
         (VectorClockProcess.compare_with_other set_iter
            (VectorClockProcess.get_clock_state process_b) process_a,
          VectorClockProcess.compare_with_other set_iter
            (VectorClockProcess.get_clock_state process_c) process_b,
          VectorClockProcess.compare_with_other set_iter
            (VectorClockProcess.get_clock_state process_c) process_a))
  | _ => None end | _ => None end | _ => None end | _ => None end
  | _ => None end | _ => None end | _ => None end.
End defs.
End Run.

(** * Proofs *)

Ltac unfold_M :=
  unfold mbind, M_bind, mret, M_ret, gets, modify, lift_outcome, raise, getitem.

(** ** Reading a dictionary with a default *)

Section get0_facts.
Context `{Countable K}.
Implicit Types (c : gmap K Z) (k : K).

Lemma get0_insert_eq c k v : get0 (<[k := v]> c) k = v.
Proof. unfold get0. by rewrite lookup_insert_eq. Qed.

Lemma get0_insert_ne c k j v : k ≠ j → get0 (<[k := v]> c) j = get0 c j.
Proof. intros. unfold get0. by rewrite lookup_insert_ne. Qed.

Lemma get0_Some c k v : c !! k = Some v → get0 c k = v.
Proof. unfold get0. by intros ->. Qed.

Lemma get0_None c k : c !! k = None → get0 c k = 0.
Proof. unfold get0. by intros ->. Qed.

Lemma get0_not_dom c k : k ∉ dom c → get0 c k = 0.
Proof. intros ?%not_elem_of_dom. by apply get0_None. Qed.

Lemma get0_nonneg c k : Spec.nonneg c → 0 ≤ get0 c k.
Proof.
  intros Hc. unfold get0. destruct (c !! k) as [v|] eqn:Hk; simpl; [|lia].
  exact (Hc k v Hk).
Qed.

Lemma pyget0_int (r : gmap K Z) k : pyget0 (PyInt <$> r) k = PyInt (get0 r k).
Proof. unfold pyget0, get0. rewrite lookup_fmap. by destruct (r !! k). Qed.

Lemma nonneg_insert c k v : Spec.nonneg c → 0 ≤ v → Spec.nonneg (<[k := v]> c).
Proof. intros. by apply map_Forall_insert_2. Qed.

Lemma grows_refl c : Spec.grows c c.
Proof. intros k v ?. exists v. split; [done | lia]. Qed.

Lemma grows_trans c1 c2 c3 :
  Spec.grows c1 c2 → Spec.grows c2 c3 → Spec.grows c1 c3.
Proof.
  intros H12 H23 k v Hk.
  destruct (H12 k v Hk) as (v2 & Hk2 & ?).
  destruct (H23 k v2 Hk2) as (v3 & Hk3 & ?).
  exists v3. split; [done | lia].
Qed.

Lemma grows_insert c k v : get0 c k ≤ v → Spec.grows c (<[k := v]> c).
Proof.
  intros Hle j w Hj. destruct (decide (k = j)) as [->|Hne].
  - exists v. rewrite lookup_insert_eq. split; [done|].
    by rewrite (get0_Some _ _ _ Hj) in Hle.
  - exists w. rewrite lookup_insert_ne by done. split; [done | lia].
Qed.
End get0_facts.

(** ** The class [VectorClock] *)

Section vector_clock_theory.
Context `{Countable K}.
Variable set_iter : gset K → list K.
Hypothesis set_iter_perm : ∀ s, set_iter s ≡ₚ elements s.
Import VectorClock.
Implicit Types (self : VectorClock.t K) (r : gmap K Z) (k : K).

Lemma elem_of_set_iter k (s : gset K) : k ∈ set_iter s ↔ k ∈ s.
Proof. rewrite set_iter_perm. apply elem_of_elements. Qed.

Lemma set_clock_id self : set_clock (clock self) self = self.
Proof. by destruct self. Qed.

(** On integer counters the loop never raises, and it leaves the larger
    value at every key it visits. *)
Lemma update_loop_int r ps self :
  ∃ c', update_loop (PyInt <$> r) ps self = (set_clock c' self, Return tt) ∧
    ∀ k, c' !! k = if decide (k ∈ ps)
                   then Some (Z.max (get0 (clock self) k) (get0 r k))
                   else clock self !! k.
Proof.
  revert self. induction ps as [|p ps IH]; intros self.
  - exists (clock self). split; [by rewrite set_clock_id|].
    intros k. case_decide as Hk; [by apply elem_of_nil in Hk | done].
  - destruct (IH (set_clock (<[p := Z.max (get0 (clock self) p) (get0 r p)]>
                               (clock self)) self)) as (c' & Hrun & Hc').
    exists c'. split.
    + simpl. unfold_M. rewrite pyget0_int. simpl. exact Hrun.
    + intros k. rewrite Hc'. simpl.
      destruct (decide (k = p)) as [->|Hne].
      * rewrite get0_insert_eq, lookup_insert_eq.
        rewrite (decide_True (P := p ∈ p :: ps)) by (apply elem_of_cons; by left).
        case_decide; f_equal; lia.
      * rewrite get0_insert_ne, lookup_insert_ne by done.
        destruct (decide (k ∈ ps)).
        -- by rewrite decide_True by (apply elem_of_cons; by right).
        -- by rewrite decide_False by (apply not_elem_of_cons; by split).
Qed.

Lemma merge_int r self :
  ∃ c', merge set_iter (PyInt <$> r) self = (set_clock c' self, Return tt) ∧
        Spec.is_merge (clock self) r c'.
Proof.
  destruct (update_loop_int r (set_iter (dom (clock self) ∪ dom r)) self)
    as (c' & Hrun & Hc').
  exists c'. split.
  - unfold merge. unfold_M. by rewrite dom_fmap_L.
  - assert (Hdom : dom c' = dom (clock self) ∪ dom r).
    { apply set_eq. intros k. rewrite elem_of_dom, Hc'.
      case_decide as Hk; rewrite elem_of_set_iter in Hk.
      - split; [done | by eauto].
      - rewrite <-elem_of_dom. split; [|done].
        intros Hk'. apply elem_of_union. by left. }
    split; [done|]. intros k Hk. rewrite Hc'.
    by rewrite decide_True by (by apply elem_of_set_iter).
Qed.

Lemma increment_Some self v :
  clock self !! process_id self = Some v →
  increment self =
    (set_clock (<[process_id self := v + 1]> (clock self)) self, Return (v + 1)).
Proof. unfold increment. by intros ->. Qed.

(** [update] on integer counters: the merge, then one more on the owner. *)
Lemma update_int r self :
  process_id self ∈ dom (clock self) →
  ∃ merged,
    merge set_iter (PyInt <$> r) self = (set_clock merged self, Return tt) ∧
    Spec.is_merge (clock self) r merged ∧
    increment (set_clock merged self) =
      (set_clock (<[process_id self := get0 merged (process_id self) + 1]> merged) self,
       Return (get0 merged (process_id self) + 1)) ∧
    update set_iter (PyInt <$> r) self =
      (set_clock (<[process_id self := get0 merged (process_id self) + 1]> merged) self,
       Return tt).
Proof.
  intros Hown. destruct (merge_int r self) as (merged & Hrun & Hm).
  exists merged. split; [done|]. split; [done|].
  assert (Hv : merged !! process_id self = Some (get0 merged (process_id self))).
  { destruct Hm as [_ Hm].
    assert (Hu : process_id self ∈ dom (clock self) ∪ dom r)
      by (apply elem_of_union; by left).
    unfold get0 at 1. by rewrite (Hm _ Hu). }
  assert (Hinc : increment (set_clock merged self) =
    (set_clock (<[process_id self := get0 merged (process_id self) + 1]> merged) self,
     Return (get0 merged (process_id self) + 1))).
  { unfold increment. simpl. by rewrite Hv. }
  split; [done|].
  unfold update. unfold_M. rewrite Hrun, Hinc. done.
Qed.

(** *** Merging is symmetric and idempotent *)

Lemma is_merge_comm (a b m : gmap K Z) : Spec.is_merge a b m → Spec.is_merge b a m.
Proof.
  intros [Hdom Hm]. split.
  - rewrite Hdom. apply union_comm_L.
  - intros k Hk. rewrite Hm, Z.max_comm; [done|].
    by rewrite union_comm_L.
Qed.

Lemma is_merge_unique (a b m m' : gmap K Z) :
  Spec.is_merge a b m → Spec.is_merge a b m' → m = m'.
Proof.
  intros [Hdom Hm] [Hdom' Hm']. apply map_eq. intros k.
  destruct (decide (k ∈ dom a ∪ dom b)) as [Hk|Hk].
  - by rewrite Hm, Hm'.
  - assert (m !! k = None) as -> by (apply not_elem_of_dom; by rewrite Hdom).
    symmetry. apply not_elem_of_dom. by rewrite Hdom'.
Qed.

Lemma is_merge_self (a : gmap K Z) : Spec.is_merge a a a.
Proof.
  split; [by rewrite union_idemp_L|].
  intros k Hk. rewrite union_idemp_L in Hk.
  apply elem_of_dom in Hk as [v Hv].
  rewrite (get0_Some _ _ _ Hv), Z.max_id. done.
Qed.

(** *** The loop of [compare] *)

Lemma compare_flags (c o : gmap K Z) ps flags :
  foldl (compare_step c o) flags ps =
    (flags.1 && forallb (λ k, get0 c k <=? get0 o k) ps,
     flags.2 && forallb (λ k, get0 o k <=? get0 c k) ps).
Proof.
  revert flags. induction ps as [|p ps IH]; intros [lt gt]; simpl.
  - by rewrite !andb_true_r.
  - rewrite IH. unfold compare_step. simpl. rewrite Z.gtb_ltb.
    destruct (Z.ltb_spec (get0 c p) (get0 o p)),
             (Z.ltb_spec (get0 o p) (get0 c p)),
             (Z.leb_spec (get0 c p) (get0 o p)),
             (Z.leb_spec (get0 o p) (get0 c p)); try lia; simpl;
      by rewrite ?andb_false_r.
Qed.

Lemma forallb_pointwise_le (a b : gmap K Z) :
  forallb (λ k, get0 a k <=? get0 b k) (set_iter (dom a ∪ dom b)) = true ↔
  Spec.pointwise_le a b.
Proof.
  rewrite forallb_forall. unfold Spec.pointwise_le. split.
  - intros Hall k Hk. apply Z.leb_le, Hall, list_elem_of_In.
    by apply elem_of_set_iter.
  - intros Hall k Hk. apply Z.leb_le, Hall.
    by apply elem_of_set_iter, list_elem_of_In.
Qed.

Lemma forallb_pointwise_ge (a b : gmap K Z) :
  forallb (λ k, get0 b k <=? get0 a k) (set_iter (dom a ∪ dom b)) = true ↔
  Spec.pointwise_le b a.
Proof.
  rewrite <-forallb_pointwise_le. by rewrite (union_comm_L (dom a) (dom b)).
Qed.

Lemma pointwise_eq_le (a b : gmap K Z) :
  Spec.pointwise_eq a b ↔ Spec.pointwise_le a b ∧ Spec.pointwise_le b a.
Proof.
  unfold Spec.pointwise_eq, Spec.pointwise_le.
  rewrite (union_comm_L (dom b) (dom a)). split.
  - intros Heq. split; intros k Hk; rewrite (Heq k Hk); lia.
  - intros [Hab Hba] k Hk. specialize (Hab k Hk). specialize (Hba k Hk). lia.
Qed.

Lemma pointwise_eq_refl (a : gmap K Z) : Spec.pointwise_eq a a.
Proof. by intros k _. Qed.

(** What [compare] returns, by the three tests it makes. *)
Lemma compare_cases (o : gmap K Z) self :
  compare set_iter o self =
    if decide (clock self = o) then None
    else if forallb (λ k, get0 (clock self) k <=? get0 o k)
              (set_iter (dom (clock self) ∪ dom o))
         then if forallb (λ k, get0 o k <=? get0 (clock self) k)
                   (set_iter (dom (clock self) ∪ dom o))
              then Some 0 else Some (-1)
         else if forallb (λ k, get0 o k <=? get0 (clock self) k)
                   (set_iter (dom (clock self) ∪ dom o))
              then Some 1 else Some 0.
Proof.
  unfold compare. case_decide; [done|]. rewrite compare_flags. simpl.
  by repeat destruct (forallb _ _).
Qed.

Lemma compare_spec (o : gmap K Z) self :
  let c := clock self in
  let res := compare set_iter o self in
  (c = o ∧ res = None) ∨
  (c ≠ o ∧ Spec.pointwise_le c o ∧ Spec.pointwise_le o c ∧ res = Some 0) ∨
  (c ≠ o ∧ Spec.pointwise_le c o ∧ ¬ Spec.pointwise_le o c ∧ res = Some (-1)) ∨
  (c ≠ o ∧ ¬ Spec.pointwise_le c o ∧ Spec.pointwise_le o c ∧ res = Some 1) ∨
  (c ≠ o ∧ ¬ Spec.pointwise_le c o ∧ ¬ Spec.pointwise_le o c ∧ res = Some 0).
Proof.
  intros c res. unfold res. rewrite compare_cases. fold c.
  pose proof (forallb_pointwise_le c o) as Hle.
  pose proof (forallb_pointwise_ge c o) as Hge.
  case_decide as Heq; [by left | right].
  destruct (forallb (λ k, get0 c k <=? get0 o k) _),
           (forallb (λ k, get0 o k <=? get0 c k) _).
  - left. intuition.
  - right; left. intuition discriminate.
  - right; right; left. intuition discriminate.
  - right; right; right. intuition discriminate.
Qed.

Lemma compare_before_iff (o : gmap K Z) self :
  compare set_iter o self = Some (-1) ↔
  Spec.pointwise_le (clock self) o ∧ ¬ Spec.pointwise_eq (clock self) o.
Proof.
  rewrite pointwise_eq_le.
  destruct (compare_spec o self) as [[? ->]|[(?&?&?&->)|[(?&?&?&->)|[(?&?&?&->)|(?&?&?&->)]]]];
    [subst o; pose proof (pointwise_eq_refl (clock self)) as ?%pointwise_eq_le|..];
    intuition congruence.
Qed.

Lemma compare_after_iff (o : gmap K Z) self :
  compare set_iter o self = Some 1 ↔
  Spec.pointwise_le o (clock self) ∧ ¬ Spec.pointwise_eq (clock self) o.
Proof.
  rewrite pointwise_eq_le.
  destruct (compare_spec o self) as [[? ->]|[(?&?&?&->)|[(?&?&?&->)|[(?&?&?&->)|(?&?&?&->)]]]];
    [subst o; pose proof (pointwise_eq_refl (clock self)) as ?%pointwise_eq_le|..];
    intuition congruence.
Qed.

Lemma compare_equal_iff (o : gmap K Z) self :
  compare set_iter o self = None ↔ clock self = o.
Proof.
  destruct (compare_spec o self) as [[? ->]|[(?&?&?&->)|[(?&?&?&->)|[(?&?&?&->)|(?&?&?&->)]]]];
    intuition congruence.
Qed.

Lemma compare_concurrent_iff (o : gmap K Z) self :
  compare set_iter o self = Some 0 ↔
  clock self ≠ o ∧
  ((¬ Spec.pointwise_le (clock self) o ∧ ¬ Spec.pointwise_le o (clock self)) ∨
   Spec.pointwise_eq (clock self) o).
Proof.
  rewrite pointwise_eq_le.
  destruct (compare_spec o self) as [[? ->]|[(?&?&?&->)|[(?&?&?&->)|[(?&?&?&->)|(?&?&?&->)]]]];
    intuition congruence.
Qed.

Lemma compare_swap (a b : gmap K Z) p q :
  compare set_iter b (mk p a) = Some (-1) ↔
  compare set_iter a (mk q b) = Some 1.
Proof.
  rewrite compare_before_iff, compare_after_iff. simpl.
  rewrite !pointwise_eq_le. intuition.
Qed.

(** *** What every call keeps: the owner, the owner's entry, the signs,
    and the values already reached *)

Lemma keeps_refl self : Spec.keeps self self.
Proof. repeat split; auto using grows_refl. Qed.

Lemma keeps_trans (s1 s2 s3 : VectorClock.t K) : Spec.keeps s1 s2 → Spec.keeps s2 s3 → Spec.keeps s1 s3.
Proof.
  intros (Hp & Hd & Hn & Hg) (Hp' & Hd' & Hn' & Hg').
  split; [congruence|]. split; [|split].
  - intros ?. rewrite Hp' in *. rewrite <-Hp in *. auto.
  - auto.
  - by eapply grows_trans.
Qed.

Lemma keeps_set self k v :
  get0 (clock self) k ≤ v → (Spec.nonneg (clock self) → 0 ≤ v) →
  Spec.keeps self (set_clock (<[k := v]> (clock self)) self).
Proof.
  intros Hle Hv. split; [done|]. simpl. split; [|split].
  - intros ?. rewrite dom_insert_L. apply elem_of_union. by right.
  - intros ?. apply nonneg_insert; auto.
  - by apply grows_insert.
Qed.

Lemma py_max_Return a b v :
  py_max a b = Return v → ∃ z, b = PyInt z ∧ v = Z.max a z.
Proof. destruct b; simpl; intros [=]; eauto. Qed.

Lemma update_loop_keeps rc ps self :
  Spec.keeps self (update_loop rc ps self).1.
Proof.
  revert self. induction ps as [|p ps IH]; intros self; [apply keeps_refl|].
  simpl. unfold_M.
  destruct (py_max (get0 (clock self) p) (pyget0 rc p)) as [v|e] eqn:Hmax;
    simpl; [|apply keeps_refl].
  apply py_max_Return in Hmax as (z & _ & ->).
  eapply keeps_trans; [|apply IH].
  apply keeps_set; [lia|].
  intros Hn. pose proof (get0_nonneg (clock self) p Hn). lia.
Qed.

Lemma increment_keeps self : Spec.keeps self (increment self).1.
Proof.
  unfold increment.
  destruct (clock self !! process_id self) as [v|] eqn:Hv; simpl;
    [|apply keeps_refl].
  apply keeps_set.
  - rewrite (get0_Some _ _ _ Hv). lia.
  - intros Hn. pose proof (Hn _ _ Hv) as Hv'. simpl in Hv'. lia.
Qed.

Lemma merge_keeps rc self : Spec.keeps self (merge set_iter rc self).1.
Proof. unfold merge. unfold_M. apply update_loop_keeps. Qed.

Lemma update_keeps rc self : Spec.keeps self (update set_iter rc self).1.
Proof.
  unfold update. unfold_M.
  pose proof (merge_keeps rc self) as Hm.
  destruct (merge set_iter rc self) as [s1 [[]|e]]; simpl in *; [|done].
  pose proof (increment_keeps s1) as Hi.
  destruct (increment s1) as [s2 [v|e]]; simpl in *;
    by eapply keeps_trans.
Qed.

Lemma step_keeps self c : Spec.keeps self (step set_iter self c).
Proof. destruct c; simpl; [apply increment_keeps | apply update_keeps]. Qed.

Lemma run_keeps cs self : Spec.keeps self (run set_iter cs self).
Proof.
  revert self. induction cs as [|c cs IH]; intros self; [apply keeps_refl|].
  simpl. eapply keeps_trans; [apply step_keeps | apply IH].
Qed.

Lemma init_owner (pid : K) ic : process_id (init pid ic) = pid.
Proof. done. Qed.

Lemma init_has_owner (pid : K) ic : pid ∈ dom (clock (init pid ic)).
Proof.
  unfold init. simpl. case_decide; [done|].
  rewrite dom_insert_L. apply elem_of_union. left. by apply elem_of_singleton.
Qed.

Lemma init_nonneg (pid : K) ic :
  (∀ c, ic = Some c → Spec.nonneg c) → Spec.nonneg (clock (init pid ic)).
Proof.
  intros Hic. unfold init. simpl.
  assert (Hc : Spec.nonneg (match ic with
                            | Some ic0 => if decide (ic0 = ∅) then ∅ else ic0
                            | None => ∅
                            end)).
  { destruct ic as [c|]; [|apply map_Forall_empty].
    case_decide; [apply map_Forall_empty | by apply Hic]. }
  case_decide; [done|]. by apply nonneg_insert.
Qed.

Lemma init_fresh_owner (pid : K) ic :
  pid ∉ dom (default ∅ ic) → clock (init pid ic) !! pid = Some 0.
Proof.
  intros Hpid. unfold init. simpl.
  assert (Heq : match ic with
                | Some ic0 => if decide (ic0 = ∅) then ∅ else ic0
                | None => ∅
                end = default ∅ ic).
  { destruct ic as [c|]; [|done]. simpl. by case_decide; subst. }
  rewrite Heq. rewrite decide_False by done. apply lookup_insert_eq.
Qed.

(** *** A received clock with a counter that is not a number *)

Lemma partly_merged_refl (c : gmap K Z) rc : Spec.partly_merged c rc c.
Proof. intros k. by left. Qed.

Lemma update_loop_partly rc ps self :
  Spec.partly_merged (clock self) rc (clock (update_loop rc ps self).1).
Proof.
  revert self. induction ps as [|p ps IH]; intros self;
    [apply partly_merged_refl|].
  simpl. unfold_M.
  destruct (py_max (get0 (clock self) p) (pyget0 rc p)) as [v|e] eqn:Hmax;
    simpl; [|apply partly_merged_refl].
  apply py_max_Return in Hmax as (z & Hz & ->).
  intros k.
  destruct (IH (set_clock (<[p := Z.max (get0 (clock self) p) z]> (clock self))
                          self) k) as [Hk|(z' & Hz' & Hk)];
    rewrite Hk; cbn [clock set_clock].
  - destruct (decide (p = k)) as [<-|Hne].
    + right. exists z. by rewrite lookup_insert_eq.
    + left. by rewrite lookup_insert_ne.
  - right. exists z'. split; [done|].
    destruct (decide (p = k)) as [<-|Hne].
    + rewrite get0_insert_eq. f_equal.
      assert (z' = z) as -> by congruence. lia.
    + by rewrite get0_insert_ne.
Qed.

Lemma py_max_non_numeric a v : Spec.non_numeric v → py_max a v = Raise TypeError.
Proof. by destruct v. Qed.

Lemma update_loop_raises rc ps self :
  (∃ k, k ∈ ps ∧ Spec.non_numeric (pyget0 rc k)) →
  (update_loop rc ps self).2 = Raise TypeError.
Proof.
  revert self. induction ps as [|p ps IH]; intros self (k & Hk & Hbad).
  - by apply elem_of_nil in Hk.
  - simpl. unfold_M.
    destruct (py_max (get0 (clock self) p) (pyget0 rc p)) as [v|e] eqn:Hmax;
      simpl.
    + apply IH. exists k. split; [|done].
      apply elem_of_cons in Hk as [->|Hk]; [|done].
      by rewrite (py_max_non_numeric _ _ Hbad) in Hmax.
    + destruct (pyget0 rc p); simpl in Hmax; congruence.
Qed.

(** [update] on such a clock raises [TypeError] out of the loop: the
    owner's counter gets no increment, and the entries visited before the
    offending one stay merged. *)
Lemma update_raises rc self :
  (∃ k v, rc !! k = Some v ∧ Spec.non_numeric v) →
  ∃ self', update set_iter rc self = (self', Raise TypeError) ∧
           process_id self' = process_id self ∧
           Spec.partly_merged (clock self) rc (clock self').
Proof.
  intros (k & v & Hk & Hbad).
  exists (update_loop rc (set_iter (dom (clock self) ∪ dom rc)) self).1.
  pose proof (update_loop_raises rc (set_iter (dom (clock self) ∪ dom rc)) self)
    as Hraise.
  pose proof (update_loop_partly rc (set_iter (dom (clock self) ∪ dom rc)) self)
    as Hpart.
  pose proof (update_loop_keeps rc (set_iter (dom (clock self) ∪ dom rc)) self)
    as [Hpid _].
  split; [|done].
  unfold update, merge. unfold_M.
  destruct (update_loop rc _ self) as [s1 o]; simpl in *.
  rewrite Hraise; [done|].
  exists k. split.
  - apply elem_of_set_iter, elem_of_union. right. apply elem_of_dom. eauto.
  - unfold pyget0. by rewrite Hk.
Qed.
End vector_clock_theory.

(** ** The XML-RPC clock of [vector_process.py] *)

Section vector_process_theory.
Context `{Countable K}.
Import VectorProcess.
Implicit Types (self : VectorProcess.t K) (k : K).

Lemma rpc_set_clock_id self : set_clock (clock self) self = self.
Proof. by destruct self. Qed.

Lemma merge_incoming_int (r : list (K * Z)) self :
  NoDup r.*1 →
  ∃ c', merge_incoming (Spec.int_items r) self = (set_clock c' self, Return tt) ∧
    ∀ k, c' !! k =
         if decide (k ∈ r.*1)
         then Some (Z.max (get0 (clock self) k) (get0 (list_to_map r) k))
         else clock self !! k.
Proof.
  revert self. induction r as [|[p v] r IH]; intros self Hnd.
  - exists (clock self). split; [by rewrite rpc_set_clock_id|].
    intros k. case_decide as Hk; [by apply elem_of_nil in Hk | done].
  - rewrite fmap_cons in Hnd. cbn [fst] in Hnd.
    apply NoDup_cons in Hnd as [Hp Hnd].
    destruct (IH (set_clock (<[p := Z.max (get0 (clock self) p) v]>
                               (clock self)) self) Hnd) as (c' & Hrun & Hc').
    exists c'. split; [simpl; unfold_M; simpl; exact Hrun|].
    intros k. rewrite Hc', fmap_cons, list_to_map_cons.
    cbn [fst clock set_clock].
    destruct (decide (k = p)) as [->|Hne].
    + rewrite decide_False by done.
      rewrite (decide_True (P := p ∈ p :: r.*1)) by (apply elem_of_cons; by left).
      by rewrite lookup_insert_eq, get0_insert_eq.
    + rewrite get0_insert_ne, lookup_insert_ne by done.
      rewrite (get0_insert_ne (list_to_map r)) by done.
      destruct (decide (k ∈ r.*1)).
      * by rewrite decide_True by (apply elem_of_cons; by right).
      * by rewrite decide_False by (apply not_elem_of_cons; by split).
Qed.

Lemma dom_list_to_map_int (r : list (K * Z)) :
  dom (list_to_map r : gmap K Z) = list_to_set r.*1.
Proof. apply dom_list_to_map_L. Qed.

(** With no negative counter on the local side, leaving a local-only key
    alone is the same as taking the larger of it and 0. *)
Lemma merge_incoming_is_merge (r : list (K * Z)) self :
  NoDup r.*1 → Spec.nonneg (clock self) →
  ∃ c', merge_incoming (Spec.int_items r) self = (set_clock c' self, Return tt) ∧
        Spec.is_merge (clock self) (list_to_map r) c'.
Proof.
  intros Hnd Hnn. destruct (merge_incoming_int r self Hnd) as (c' & Hrun & Hc').
  exists c'. split; [done|].
  assert (Hlk : ∀ k, k ∈ dom (clock self) ∪ dom (list_to_map r : gmap K Z) →
            c' !! k = Some (Z.max (get0 (clock self) k) (get0 (list_to_map r) k))).
  { intros k Hk. rewrite Hc'. case_decide as Hr; [done|].
    rewrite dom_list_to_map_int, elem_of_union, elem_of_list_to_set in Hk.
    destruct Hk as [Hk|Hk]; [|done].
    apply elem_of_dom in Hk as [v Hv]. rewrite Hv.
    rewrite (get0_Some _ _ _ Hv), get0_not_dom
      by (by rewrite dom_list_to_map_int, elem_of_list_to_set).
    pose proof (Hnn _ _ Hv) as Hv'. simpl in Hv'. f_equal. lia. }
  split; [|done].
  apply set_eq. intros k. split.
  - intros Hk. destruct (decide (k ∈ r.*1)) as [Hr|Hr].
    + apply elem_of_union. right.
      by rewrite dom_list_to_map_int, elem_of_list_to_set.
    + apply elem_of_union. left.
      apply elem_of_dom in Hk. rewrite Hc', decide_False in Hk by done.
      by apply elem_of_dom.
  - intros Hk. apply elem_of_dom. rewrite (Hlk k Hk). eauto.
Qed.

Lemma rpc_receive_message_int (r : list (K * Z)) sender self :
  NoDup r.*1 → Spec.nonneg (clock self) →
  ∃ merged,
    merge_incoming (Spec.int_items r) self = (set_clock merged self, Return tt) ∧
    Spec.is_merge (clock self) (list_to_map r) merged ∧
    receive_message (mk_message sender (Some (Spec.int_items r))) self =
      (set_clock (<[port self := get0 merged (port self) + 1]> merged) self,
       Return true).
Proof.
  intros Hnd Hnn.
  destruct (merge_incoming_is_merge r self Hnd Hnn) as (merged & Hrun & Hm).
  exists merged. split; [done|]. split; [done|].
  unfold receive_message, bump_own. unfold_M. simpl. by rewrite Hrun.
Qed.

(** *** What every call keeps *)

Lemma rpc_inv_set self k v :
  Spec.rpc_inv self → 0 ≤ v → Spec.rpc_inv (set_clock (<[k := v]> (clock self)) self).
Proof.
  intros [Hp Hn] Hv. split; simpl.
  - rewrite dom_insert_L. apply elem_of_union. by right.
  - by apply nonneg_insert.
Qed.

Lemma merge_incoming_inv incoming self :
  Spec.rpc_inv self →
  Spec.rpc_inv (merge_incoming incoming self).1 ∧
  port (merge_incoming incoming self).1 = port self.
Proof.
  revert self. induction incoming as [|[p v] rest IH]; intros self Hinv; [done|].
  simpl. unfold_M.
  destruct (py_max (get0 (clock self) p) v) as [m|e] eqn:Hmax; simpl; [|done].
  destruct v as [z| |]; simplify_eq/=.
  pose proof (get0_nonneg (clock self) p (proj2 Hinv)).
  apply (IH (set_clock _ self)). apply rpc_inv_set; [done | lia].
Qed.

Lemma bump_own_inv self :
  Spec.rpc_inv self → Spec.rpc_inv (bump_own self).1 ∧ port (bump_own self).1 = port self.
Proof.
  intros Hinv. unfold bump_own. unfold_M. simpl. split; [|done].
  pose proof (get0_nonneg (clock self) (port self) (proj2 Hinv)).
  apply rpc_inv_set; [done | lia].
Qed.

Lemma rpc_step_inv self c :
  Spec.rpc_inv self → Spec.rpc_inv (step self c) ∧ port (step self c) = port self.
Proof.
  intros Hinv. destruct c as [|rp|m]; simpl.
  - by apply bump_own_inv.
  - done.
  - unfold receive_message. unfold_M.
    destruct (merge_incoming_inv (default [] (msg_clock m)) self Hinv)
      as [Hinv' Hport].
    destruct (merge_incoming _ self) as [s1 [[]|e]]; simpl in *; [|done].
    destruct (bump_own_inv s1 Hinv') as [? ?].
    unfold bump_own in *. unfold_M. simpl in *. split; [done | congruence].
Qed.

Lemma rpc_init_inv (p : K) peers : Spec.rpc_inv (init p peers) ∧ port (init p peers) = p.
Proof.
  split; [|done]. split; simpl.
  - rewrite dom_gset_to_gmap. apply elem_of_union. right.
    by apply elem_of_singleton.
  - intros k v [_ <-]%lookup_gset_to_gmap_Some. done.
Qed.

Lemma rpc_run_inv (p : K) peers cs :
  Spec.rpc_inv (run cs (init p peers)) ∧ port (run cs (init p peers)) = p.
Proof.
  unfold run. induction cs as [|c cs IH] using rev_ind; [apply rpc_init_inv|].
  rewrite foldl_app. simpl. destruct IH as [Hinv Hport].
  destruct (rpc_step_inv _ c Hinv) as [? ?]. split; [done | congruence].
Qed.

(** *** A received clock with a counter that is not a number *)

Lemma merge_incoming_app l1 l2 self :
  merge_incoming (l1 ++ l2) self =
  (merge_incoming l1 ≫= λ _, merge_incoming l2) self.
Proof.
  revert self. induction l1 as [|[p v] l1 IH]; intros self; [done|].
  simpl. unfold_M.
  destruct (py_max (get0 (clock self) p) v) as [m|e]; simpl; [|done].
  rewrite IH. by unfold_M.
Qed.

Lemma merge_incoming_int_returns (r : list (K * Z)) self :
  ∃ c', merge_incoming (Spec.int_items r) self = (set_clock c' self, Return tt).
Proof.
  revert self. induction r as [|[p v] r IH]; intros self.
  - exists (clock self). by rewrite rpc_set_clock_id.
  - destruct (IH (set_clock (<[p := Z.max (get0 (clock self) p) v]>
                               (clock self)) self)) as (c' & Hrun).
    exists c'. simpl. unfold_M. simpl. exact Hrun.
Qed.

(** The loop stops at the first such counter; what came before it in the
    message is merged, and the own entry gets no increment. *)
Lemma rpc_receive_message_raises (r : list (K * Z)) k v rest sender self :
  Spec.non_numeric v →
  ∃ merged,
    merge_incoming (Spec.int_items r) self = (set_clock merged self, Return tt) ∧
    receive_message
      (mk_message sender (Some (Spec.int_items r ++ (k, v) :: rest))) self =
      (set_clock merged self, Raise TypeError).
Proof.
  intros Hbad. destruct (merge_incoming_int_returns r self) as (merged & Hrun).
  exists merged. split; [done|].
  unfold receive_message. simpl. unfold mbind at 1, M_bind at 1.
  rewrite merge_incoming_app. unfold mbind at 1, M_bind at 1. rewrite Hrun.
  simpl. unfold_M. simpl. by rewrite (py_max_non_numeric _ _ Hbad).
Qed.

Lemma rpc_receive_message_no_clock sender self :
  receive_message (mk_message sender None) self =
    (set_clock (<[port self := get0 (clock self) (port self) + 1]> (clock self))
               self,
     Return true).
Proof. done. Qed.

(** [send_message] takes its snapshot and leaves the clock as it was. *)
Lemma rpc_send_message_keeps_clock remote_port self :
  send_message remote_port self =
    (self,
     Return {| msg_sender_port := Some (port self);
               msg_clock := Some (map_to_list (PyInt <$> clock self)) |}).
Proof. done. Qed.
End vector_process_theory.

(** ** The class [VectorClockProcess] *)

Section process_theory.
Context `{Countable K}.
Variable set_iter : gset K → list K.
Hypothesis set_iter_perm : ∀ s, set_iter s ≡ₚ elements s.
Import VectorClockProcess.
Implicit Types (self : VectorClockProcess.t K) (m : Message K).

Lemma send_message_Some self mc tp v :
  let vc := vector_clock self in
  VectorClock.clock vc !! VectorClock.process_id vc = Some v →
  let c' := <[VectorClock.process_id vc := v + 1]> (VectorClock.clock vc) in
  send_message mc tp self =
    (mk (process_id self) (VectorClock.set_clock c' vc) (message_log self),
     Return {| msg_content := Some mc;
               msg_sender := Some (process_id self);
               msg_vector_clock := Some (PyInt <$> c');
               msg_target := tp |}).
Proof.
  intros vc Hv c'. unfold send_message, on_clock. unfold_M.
  fold vc. by rewrite (increment_Some vc v Hv).
Qed.

Lemma receive_message_int m (r : gmap K Z) self :
  is_Some (msg_content m) →
  msg_vector_clock m = Some (PyInt <$> r) →
  VectorClock.process_id (vector_clock self) ∈
    dom (VectorClock.clock (vector_clock self)) →
  ∃ vc', VectorClock.update set_iter (PyInt <$> r) (vector_clock self) =
           (vc', Return tt) ∧
         receive_message set_iter m self =
           (mk (process_id self) vc'
               (message_log self ++
                  [ {| log_message := m;
                       log_local_clock := VectorClock.clock vc';
                       log_timestamp := length (message_log self) |} ]),
            Return true).
Proof.
  intros [mc Hmc] Hrc Hown.
  destruct (update_int set_iter set_iter_perm r (vector_clock self) Hown)
    as (merged & _ & _ & _ & Hup).
  eexists. split; [exact Hup|].
  unfold receive_message, on_clock. unfold_M. rewrite Hmc, Hrc. simpl.
  by rewrite Hup.
Qed.

(** *** What every call keeps *)

Lemma on_clock_log {A} (f : M (VectorClock.t K) A) self :
  message_log (on_clock f self).1 = message_log self ∧
  process_id (on_clock f self).1 = process_id self ∧
  vector_clock (on_clock f self).1 = (f (vector_clock self)).1 ∧
  (on_clock f self).2 = (f (vector_clock self)).2.
Proof. unfold on_clock. by destruct (f (vector_clock self)). Qed.

Lemma step_clock_keeps self c :
  Spec.keeps (vector_clock self) (vector_clock (step set_iter self c)).
Proof.
  destruct c as [|mc tp|m]; simpl.
  - unfold local_event. unfold_M.
    pose proof (on_clock_log VectorClock.increment self) as (_ & _ & Hvc & _).
    pose proof (increment_keeps (vector_clock self)) as Hk.
    destruct (on_clock VectorClock.increment self) as [s1 [v|e]];
      simpl in *; by rewrite Hvc.
  - unfold send_message. unfold_M.
    pose proof (on_clock_log VectorClock.increment self) as (_ & _ & Hvc & _).
    pose proof (increment_keeps (vector_clock self)) as Hk.
    destruct (on_clock VectorClock.increment self) as [s1 [v|e]];
      simpl in *; by rewrite Hvc.
  - unfold receive_message. unfold_M.
    destruct (msg_content m); simpl; [|apply keeps_refl].
    destruct (msg_vector_clock m) as [rc|]; simpl; [|apply keeps_refl].
    pose proof (on_clock_log (VectorClock.update set_iter rc) self)
      as (_ & _ & Hvc & _).
    pose proof (update_keeps set_iter rc (vector_clock self)) as Hk.
    destruct (on_clock (VectorClock.update set_iter rc) self) as [s1 [[]|e]];
      simpl in *; by rewrite Hvc.
Qed.

Lemma step_log self c :
  message_log (step set_iter self c) = message_log self ∨
  ∃ e, message_log (step set_iter self c) = message_log self ++ [e] ∧
       log_timestamp e = length (message_log self).
Proof.
  destruct c as [|mc tp|m]; simpl.
  - left. unfold local_event. unfold_M.
    pose proof (on_clock_log VectorClock.increment self) as (Hlog & _).
    by destruct (on_clock VectorClock.increment self) as [s1 [v|e]].
  - left. unfold send_message. unfold_M.
    pose proof (on_clock_log VectorClock.increment self) as (Hlog & _).
    by destruct (on_clock VectorClock.increment self) as [s1 [v|e]].
  - unfold receive_message. unfold_M.
    destruct (msg_content m); simpl; [|by left].
    destruct (msg_vector_clock m) as [rc|]; simpl; [|by left].
    pose proof (on_clock_log (VectorClock.update set_iter rc) self)
      as (Hlog & _).
    destruct (on_clock (VectorClock.update set_iter rc) self) as [s1 [[]|e]];
      simpl in *; [|by left].
    right. eexists. rewrite Hlog. split; [done|]. by simpl.
Qed.

Lemma log_indexed_snoc (log : list (LogEntry K)) e :
  Spec.log_indexed log → log_timestamp e = length log →
  Spec.log_indexed (log ++ [e]).
Proof.
  intros Hlog He i e' Hi.
  apply lookup_app_Some in Hi as [Hi|[Hlen Hi]]; [by apply Hlog|].
  apply list_lookup_singleton_Some in Hi as [Hi <-]. lia.
Qed.

Lemma process_run_inv (pid : K) cs :
  let self := run set_iter cs (init pid) in
  Spec.keeps (VectorClock.init pid None) (vector_clock self) ∧
  Spec.log_indexed (message_log self).
Proof.
  unfold run. induction cs as [|c cs IH] using rev_ind.
  - split; [apply keeps_refl|]. by intros i e Hi.
  - rewrite foldl_app. simpl. destruct IH as [Hk Hlog]. split.
    + eapply keeps_trans; [exact Hk | apply step_clock_keeps].
    + destruct (step_log (foldl (step set_iter) (init pid) cs) c)
        as [->|(e & -> & He)]; [done|].
      by apply log_indexed_snoc.
Qed.

Lemma process_run_owner (pid : K) cs :
  let vc := vector_clock (run set_iter cs (init pid)) in
  VectorClock.process_id vc ∈ dom (VectorClock.clock vc).
Proof.
  destruct (process_run_inv pid cs) as [(Hp & Hd & _) _]. apply Hd.
  apply init_has_owner.
Qed.
End process_theory.

(** ** Snapshots on the heap *)

Section store_theory.
Context `{Countable K}.
Variable set_iter : gset K → list K.
Import Store.
Implicit Types (self : Store.t K) (s : Store.state K) (l : loc).

Lemma frames_refl self s : Spec.frames self s s.
Proof. by split. Qed.

Lemma frames_trans self s1 s2 s3 :
  Spec.frames self s1 s2 → Spec.frames self s2 s3 → Spec.frames self s1 s3.
Proof.
  intros [Hd Hl] [Hd' Hl']. split; [by etrans|].
  intros l Hin Hne. rewrite Hl', Hl; auto.
Qed.

Lemma frames_bind {A B} self (m : M (state K) A) (k : A → M (state K) B) :
  (∀ s, Spec.frames self s (m s).1) →
  (∀ a s, Spec.frames self s (k a s).1) →
  ∀ s, Spec.frames self s ((m ≫= k) s).1.
Proof.
  intros Hm Hk s. unfold_M. specialize (Hm s).
  destruct (m s) as [s1 [a|e]]; simpl in *; [|done].
  eapply frames_trans; [exact Hm | apply Hk].
Qed.

Lemma frames_alloc self d s : Spec.frames self s (alloc d s).1.
Proof.
  unfold alloc. split; simpl.
  - rewrite dom_insert. apply union_subseteq_r.
  - intros l Hl _. apply lookup_insert_ne. intros <-.
    by apply (is_fresh (dom (heap s))).
Qed.

Lemma frames_dict_copy self l s : Spec.frames self s (dict_copy l s).1.
Proof.
  revert s. apply frames_bind; [intros s; apply frames_refl|].
  intros d s. apply frames_alloc.
Qed.

Lemma frames_on_dict {A} self (m : M (VectorClock.t K) A) s :
  Spec.frames self s (on_dict self m s).1.
Proof.
  unfold on_dict. destruct (m _) as [vc o]. split; simpl.
  - rewrite dom_insert. apply union_subseteq_r.
  - intros l _ Hne. by apply lookup_insert_ne.
Qed.

Lemma frames_ret {A} self (a : A) s : Spec.frames self s ((mret a : M _ A) s).1.
Proof. apply frames_refl. Qed.

Lemma frames_getitem {A} self (o : option A) s :
  Spec.frames self s ((getitem o : M _ A) s).1.
Proof. destruct o; apply frames_refl. Qed.

Lemma frames_local_event self s : Spec.frames self s (local_event self s).1.
Proof.
  revert s. apply frames_bind; [intros s; apply frames_on_dict|].
  intros _ s. apply frames_ret.
Qed.

Lemma frames_send_message self mc tp s :
  Spec.frames self s (send_message self mc tp s).1.
Proof.
  revert s. apply frames_bind; [intros s; apply frames_on_dict|].
  intros _. apply frames_bind; [intros s; apply frames_dict_copy|].
  intros l s. apply frames_ret.
Qed.

Lemma frames_receive_message self m s :
  Spec.frames self s (receive_message set_iter self m s).1.
Proof.
  revert s. apply frames_bind; [intros s; apply frames_getitem|].
  intros _. apply frames_bind; [intros s; apply frames_getitem|].
  intros rc. apply frames_bind; [intros s; apply frames_on_dict|].
  intros _. apply frames_bind; [intros s; apply frames_dict_copy|].
  intros l0. apply frames_bind; [intros s; apply frames_dict_copy|].
  intros l1. apply frames_bind; [intros s; by split|].
  intros _ s. apply frames_ret.
Qed.

Lemma frames_step self s c : Spec.frames self s (step set_iter self s c).
Proof.
  destruct c; simpl;
    [apply frames_local_event | apply frames_send_message
    | apply frames_receive_message].
Qed.

Lemma frames_run self cs s : Spec.frames self s (run set_iter self cs s).
Proof.
  revert s. induction cs as [|c cs IH]; intros s; [apply frames_refl|].
  simpl. eapply frames_trans; [apply frames_step | apply IH].
Qed.


(** *** The heap model and the state-passing model agree *)

Lemma lookup_total_frames self s s' l :
  Spec.frames self s s' → l ∈ dom (heap s) → l ≠ clock self →
  heap s' !!! l = heap s !!! l.
Proof.
  intros [_ Hl] Hin Hne. by rewrite !lookup_total_alt, Hl.
Qed.

Lemma erase_log_frames self s s' :
  Spec.frames self s s' → Spec.store_wf self s →
  erase_entry s' <$> message_log s = erase_entry s <$> message_log s.
Proof.
  intros Hfr [_ Hlog]. apply list_fmap_ext. intros i e Hi.
  destruct (Hlog e) as [Hin Hne]; [by eapply list_elem_of_lookup_2|].
  unfold erase_entry. f_equal. by eapply lookup_total_frames.
Qed.

Lemma store_wf_frames self s s' :
  Spec.frames self s s' → message_log s' = message_log s →
  Spec.store_wf self s → Spec.store_wf self s'.
Proof.
  intros [Hd _] Hlog [Hc Hl]. split; [by apply Hd|].
  rewrite Hlog. intros e He. destruct (Hl e He). split; [by apply Hd | done].
Qed.

(** A method of the clock, run through the reference or on the value. *)
Lemma on_dict_erase {A} (f : M (VectorClock.t K) A) self s :
  (∀ vc, VectorClock.process_id (f vc).1 = VectorClock.process_id vc) →
  Spec.store_wf self s →
  let r := on_dict self f s in
  let r' := VectorClockProcess.on_clock f (erase self s) in
  erase self r.1 = r'.1 ∧ r.2 = r'.2 ∧ Spec.store_wf self r.1.
Proof.
  intros Hpid Hwf r r'.
  pose proof (frames_on_dict self f s) as Hfr. fold r in Hfr.
  assert (Hlog : message_log r.1 = message_log s).
  { unfold r, on_dict. by destruct (f _). }
  split; [|split].
  - unfold erase. rewrite Hlog, (erase_log_frames self s r.1 Hfr Hwf).
    unfold r, r', on_dict, VectorClockProcess.on_clock, erase. simpl.
    specialize (Hpid (VectorClock.mk (process_id self) (heap s !!! clock self))).
    destruct (f _) as [[pid c] o]. simpl in *. subst pid.
    by rewrite lookup_total_insert_eq.
  - unfold r, r', on_dict, VectorClockProcess.on_clock, erase. simpl.
    by destruct (f _).
  - by apply (store_wf_frames self s).
Qed.

Lemma dict_copy_erase self s l0 :
  Spec.store_wf self s →
  let l := fresh (dom (heap s)) in
  let s' := mk_state (<[l := heap s !!! l0]> (heap s)) (message_log s) in
  dict_copy l0 s = (s', Return l) ∧ (l ∉ dom (heap s)) ∧
  erase self s' = erase self s ∧ Spec.store_wf self s'.
Proof.
  intros Hwf l s'.
  assert (Hl : l ∉ dom (heap s)) by apply is_fresh.
  pose proof (frames_dict_copy self l0 s) as Hfr.
  change (dict_copy l0 s).1 with s' in Hfr.
  split; [done|]. split; [done|].
  split; [|by apply (store_wf_frames self s)].
  unfold erase. change (message_log s') with (message_log s).
  rewrite (erase_log_frames self s s' Hfr Hwf).
  do 2 f_equal. simpl.
  apply lookup_total_insert_ne. intros Heq. apply Hl.
  destruct Hwf as [Hc _]. unfold l in *. by rewrite Heq.
Qed.

Lemma increment_pid (vc : VectorClock.t K) :
  VectorClock.process_id (VectorClock.increment vc).1 =
  VectorClock.process_id vc.
Proof. by destruct (increment_keeps vc). Qed.

Lemma update_pid rc (vc : VectorClock.t K) :
  VectorClock.process_id (VectorClock.update set_iter rc vc).1 =
  VectorClock.process_id vc.
Proof. by destruct (update_keeps set_iter rc vc). Qed.

Lemma erase_local_event self s :
  Spec.store_wf self s →
  erase self (local_event self s).1 =
    (VectorClockProcess.local_event (erase self s)).1 ∧
  Spec.store_wf self (local_event self s).1.
Proof.
  intros Hwf.
  destruct (on_dict_erase VectorClock.increment self s increment_pid Hwf)
    as (He & Ho & Hwf').
  unfold local_event, VectorClockProcess.local_event. unfold_M.
  destruct (on_dict self VectorClock.increment s) as [s1 o],
    (VectorClockProcess.on_clock VectorClock.increment (erase self s))
    as [p1 o']; simpl in *; subst o'.
  by destruct o.
Qed.

Lemma erase_send_message self s mc tp :
  Spec.store_wf self s →
  erase self (send_message self mc tp s).1 =
    (VectorClockProcess.send_message mc tp (erase self s)).1 ∧
  Spec.store_wf self (send_message self mc tp s).1.
Proof.
  intros Hwf.
  destruct (on_dict_erase VectorClock.increment self s increment_pid Hwf)
    as (He & Ho & Hwf').
  unfold send_message, VectorClockProcess.send_message, get_clock. unfold_M.
  destruct (on_dict self VectorClock.increment s) as [s1 o],
    (VectorClockProcess.on_clock VectorClock.increment (erase self s))
    as [p1 o']; cbn [fst snd] in He, Ho, Hwf'; subst o'.
  destruct o as [v|e]; [|done].
  destruct (dict_copy_erase self s1 (clock self) Hwf')
    as (-> & _ & He' & Hwf''). simpl.
  by rewrite He'.
Qed.

Lemma erase_receive_message self s m :
  Spec.store_wf self s →
  erase self (receive_message set_iter self m s).1 =
    (VectorClockProcess.receive_message set_iter m (erase self s)).1 ∧
  Spec.store_wf self (receive_message set_iter self m s).1.
Proof.
  intros Hwf.
  unfold receive_message, VectorClockProcess.receive_message, get_clock.
  unfold_M.
  destruct (VectorClockProcess.msg_content m); cbn -[dict_copy]; [|done].
  destruct (VectorClockProcess.msg_vector_clock m) as [rc|]; cbn -[dict_copy];
    [|done].
  destruct (on_dict_erase (VectorClock.update set_iter rc) self s
              (update_pid rc) Hwf) as (He & Ho & Hwf').
  destruct (on_dict self (VectorClock.update set_iter rc) s) as [s1 o],
    (VectorClockProcess.on_clock (VectorClock.update set_iter rc) (erase self s))
    as [p1 o']; cbn [fst snd] in He, Ho, Hwf'; subst o'.
  destruct o as [[]|e]; [|done].
  destruct (dict_copy_erase self s1 (clock self) Hwf')
    as (-> & Hl0 & He2 & Hwf2).
  set (l0 := fresh (dom (heap s1))) in *.
  set (s2 := mk_state (<[l0 := heap s1 !!! clock self]> (heap s1))
                      (message_log s1)) in *.
  destruct (dict_copy_erase self s2 l0 Hwf2) as (-> & Hl1 & He3 & Hwf3).
  set (l1 := fresh (dom (heap s2))) in *.
  set (s3 := mk_state (<[l1 := heap s2 !!! l0]> (heap s2))
                      (message_log s2)) in *.
  assert (Hnew : heap s3 !!! l1 = heap s1 !!! clock self).
  { unfold s3, s2. simpl. by rewrite !lookup_total_insert_eq. }
  cbn [fst snd].
  set (e := {| log_message := m; log_local_clock := l1;
               log_timestamp := length (message_log s3) |}).
  set (s4 := mk_state (heap s3) (message_log s3 ++ [e])).
  change (erase self s4 =
          VectorClockProcess.mk (VectorClockProcess.process_id p1)
            (VectorClockProcess.vector_clock p1)
            (VectorClockProcess.message_log p1 ++
               [ VectorClockProcess.mk_entry m
                   (VectorClock.get_clock (VectorClockProcess.vector_clock p1))
                   (length (VectorClockProcess.message_log p1)) ])
          ∧ Spec.store_wf self s4).
  split.
  - assert (He4 : erase self s3 = p1) by congruence.
    rewrite <-He4. unfold erase. simpl. rewrite fmap_app, length_fmap.
    f_equal. f_equal. unfold erase_entry, e. simpl. f_equal.
    assert (Hne0 : l0 ≠ clock self).
    { intros Heq. apply Hl0. rewrite Heq. by destruct Hwf'. }
    assert (Hne1 : l1 ≠ clock self).
    { intros Heq. apply Hl1. rewrite Heq. by destruct Hwf2. }
    rewrite !lookup_total_insert_eq.
    by rewrite !lookup_total_insert_ne.
  - destruct Hwf3 as [Hc3 Hlg3]. split; [done|].
    intros e' [He'|He']%elem_of_app.
    + by apply Hlg3.
    + apply list_elem_of_singleton in He' as ->. simpl. split.
      * rewrite dom_insert_L. apply elem_of_union. left.
        by apply elem_of_singleton.
      * intros Heq. apply Hl1. fold l1. rewrite Heq.
        by destruct Hwf2.
Qed.

(** Every call does to the values behind the references what the
    state-passing model says. *)
Lemma erase_step self s c :
  Spec.store_wf self s →
  erase self (step set_iter self s c) =
    VectorClockProcess.step set_iter (erase self s) c ∧
  Spec.store_wf self (step set_iter self s c).
Proof.
  destruct c; simpl;
    [apply erase_local_event | apply erase_send_message
    | apply erase_receive_message].
Qed.

Lemma erase_run self cs s :
  Spec.store_wf self s →
  erase self (run set_iter self cs s) =
    VectorClockProcess.run set_iter cs (erase self s) ∧
  Spec.store_wf self (run set_iter self cs s).
Proof.
  revert s. induction cs as [|c cs IH]; intros s Hwf; [done|].
  simpl. destruct (erase_step self s c Hwf) as [He Hwf'].
  destruct (IH _ Hwf') as [He' Hwf'']. split; [|done].
  rewrite He'. unfold VectorClockProcess.run. by rewrite He.
Qed.

Lemma erase_init (pid : K) :
  erase (init pid).1 (init pid).2 = VectorClockProcess.init pid ∧
  Spec.store_wf (init pid).1 (init pid).2.
Proof.
  split.
  - unfold erase, init. simpl. by rewrite lookup_total_singleton.
  - split; simpl.
    + rewrite dom_singleton_L. by apply elem_of_singleton.
    + intros e He. by apply elem_of_nil in He.
Qed.

Lemma erase_init_run (pid : K) calls :
  let obj := (init pid).1 in
  let s := run set_iter obj calls (init pid).2 in
  erase obj s =
    VectorClockProcess.run set_iter calls (VectorClockProcess.init pid) ∧
  Spec.store_wf obj s.
Proof.
  intros obj s. destruct (erase_init pid) as [Hi Hwf].
  destruct (erase_run obj calls _ Hwf) as [He Hwf']. split; [|done].
  fold obj in Hi. unfold s. by rewrite He, Hi.
Qed.
End store_theory.

(** * The numbered properties *)

Section properties.
Context `{Countable K}.
Variable set_iter : gset K → list K.
Hypothesis set_iter_perm : ∀ s, set_iter s ≡ₚ elements s.

(** C1.  Merging a received mapping [r] of integer counters into a local
    clock leaves, at every key of either, the larger of the two values (a
    missing one read as 0), the keys of the result being the union of the
    keys; the owner's entry is then raised by exactly one.  This holds for
    [VectorClock.update] on a clock that has its owner's entry, and for the
    merge of [receive_message] in [vector_process.py] on a clock that has
    its own entry and no negative counter, which is every clock that class
    can reach. *)
Theorem C1_merge_is_max_then_increment
    (self : VectorClock.t K) (r : gmap K Z)
    (node : VectorProcess.t K) (items : list (K * Z)) (sender : option K) :
  VectorClock.process_id self ∈ dom (VectorClock.clock self) →
  Spec.rpc_inv node →
  NoDup items.*1 →
  (∃ merged,
     VectorClock.merge set_iter (PyInt <$> r) self =
       (VectorClock.set_clock merged self, Return tt) ∧
     Spec.is_merge (VectorClock.clock self) r merged ∧
     let owner := VectorClock.process_id self in
     let final := <[owner := get0 merged owner + 1]> merged in
     VectorClock.update set_iter (PyInt <$> r) self =
       (VectorClock.set_clock final self, Return tt) ∧
     dom final = dom (VectorClock.clock self) ∪ dom r) ∧
  (∃ merged,
     VectorProcess.merge_incoming (Spec.int_items items) node =
       (VectorProcess.set_clock merged node, Return tt) ∧
     Spec.is_merge (VectorProcess.clock node) (list_to_map items) merged ∧
     let owner := VectorProcess.port node in
     let final := <[owner := get0 merged owner + 1]> merged in
     VectorProcess.receive_message
       (VectorProcess.mk_message sender (Some (Spec.int_items items))) node =
       (VectorProcess.set_clock final node, Return true) ∧
     dom final =
       dom (VectorProcess.clock node) ∪ dom (list_to_map items : gmap K Z)).
Proof.
  intros Hown [Hport Hnn] Hnd. split.
  - destruct (update_int set_iter set_iter_perm r self Hown)
      as (merged & Hmerge & Hm & _ & Hup).
    exists merged. split; [done|]. split; [done|]. split; [done|].
    rewrite dom_insert_L. destruct Hm as [-> _].
    apply subseteq_union_1_L, singleton_subseteq_l, elem_of_union. by left.
  - destruct (rpc_receive_message_int items sender node Hnd Hnn)
      as (merged & Hmerge & Hm & Hrecv).
    exists merged. split; [done|]. split; [done|]. split; [done|].
    rewrite dom_insert_L. destruct Hm as [-> _].
    apply subseteq_union_1_L, singleton_subseteq_l, elem_of_union. by left.
Qed.

(** C2, as amended.  [compare] returns BEFORE (-1) iff [self <= other]
    pointwise over the union of the keys (missing keys read as 0) and the
    two are not pointwise equal there; AFTER (1) iff the reverse; EQUAL
    ([None]) iff the two mappings are identical key for key; and
    CONCURRENT (0) otherwise. *)
Theorem C2_compare_classifies (other : gmap K Z) (self : VectorClock.t K) :
  let c := VectorClock.clock self in
  let res := VectorClock.compare set_iter other self in
  let before := Spec.pointwise_le c other ∧ ¬ Spec.pointwise_eq c other in
  let after := Spec.pointwise_le other c ∧ ¬ Spec.pointwise_eq c other in
  (res = Spec.BEFORE ↔ before) ∧
  (res = Spec.AFTER ↔ after) ∧
  (res = Spec.EQUAL ↔ c = other) ∧
  (res = Spec.CONCURRENT ↔ ¬ before ∧ ¬ after ∧ c ≠ other).
Proof.
  intros c res before after.
  pose proof (compare_before_iff set_iter set_iter_perm other self) as Hb.
  pose proof (compare_after_iff set_iter set_iter_perm other self) as Ha.
  pose proof (compare_equal_iff set_iter set_iter_perm other self) as He.
  fold c res in Hb, Ha, He. fold before in Hb. fold after in Ha.
  split; [done|]. split; [done|]. split; [done|].
  unfold Spec.CONCURRENT. rewrite <-Hb, <-Ha, <-He.
  unfold Spec.BEFORE, Spec.AFTER.
  destruct (compare_spec set_iter set_iter_perm other self)
    as [[? Hr]|[(?&?&?&Hr)|[(?&?&?&Hr)|[(?&?&?&Hr)|(?&?&?&Hr)]]]];
    fold res in Hr; rewrite Hr; intuition congruence.
Qed.

(** C3.  Of "A before B", "A after B", "A concurrent with B" and "A equal
    to B" exactly one holds; [compare(A, B)] is BEFORE iff [compare(B, A)]
    is AFTER; and [compare(A, A)] is EQUAL. *)
Theorem C3_compare_partial_order (a b : VectorClock.t K) :
  let before := VectorClock.happens_before set_iter (VectorClock.clock b) a in
  let after := VectorClock.happens_after set_iter (VectorClock.clock b) a in
  let concurrent := VectorClock.is_concurrent set_iter (VectorClock.clock b) a in
  let equal :=
    bool_decide (VectorClock.compare set_iter (VectorClock.clock b) a
                 = Spec.EQUAL) in
  (Nat.b2n before + Nat.b2n after + Nat.b2n concurrent + Nat.b2n equal
   = 1)%nat ∧
  (VectorClock.compare set_iter (VectorClock.clock b) a = Spec.BEFORE ↔
   VectorClock.compare set_iter (VectorClock.clock a) b = Spec.AFTER) ∧
  VectorClock.compare set_iter (VectorClock.clock a) a = Spec.EQUAL.
Proof.
  intros before after concurrent equal. split; [|split].
  - unfold before, after, concurrent, equal, VectorClock.happens_before,
      VectorClock.happens_after, VectorClock.is_concurrent, Spec.EQUAL.
    destruct (compare_spec set_iter set_iter_perm (VectorClock.clock b) a)
      as [[? Hr]|[(?&?&?&Hr)|[(?&?&?&Hr)|[(?&?&?&Hr)|(?&?&?&Hr)]]]];
      cbv zeta in Hr; by rewrite Hr.
  - destruct a as [p ca], b as [q cb]. simpl.
    apply (compare_swap set_iter set_iter_perm).
  - by apply (compare_equal_iff set_iter set_iter_perm).
Qed.

(** C10.  Two mappings that read the same at every key of the union of
    their keys (missing keys read as 0) without being the same mapping,
    such as [{A: 1}] and [{A: 1, B: 0}], compare as CONCURRENT (0): not
    EQUAL, not BEFORE, not AFTER. *)
Theorem C10_padded_equal_is_concurrent
    (other : gmap K Z) (self : VectorClock.t K) :
  Spec.pointwise_eq (VectorClock.clock self) other →
  VectorClock.clock self ≠ other →
  VectorClock.compare set_iter other self = Spec.CONCURRENT.
Proof.
  intros Heq Hne.
  apply (compare_concurrent_iff set_iter set_iter_perm). auto.
Qed.

(** C8.  The merge before the owner's increment gives the same mapping for
    [a] merged with [b] as for [b] merged with [a], namely the larger value
    at every key, and merging a mapping with itself gives it back. *)
Theorem C8_merge_commutative_idempotent (a b : gmap K Z) (p q : K) :
  ∃ m,
    VectorClock.merge set_iter (PyInt <$> b) (VectorClock.mk p a) =
      (VectorClock.mk p m, Return tt) ∧
    VectorClock.merge set_iter (PyInt <$> a) (VectorClock.mk q b) =
      (VectorClock.mk q m, Return tt) ∧
    Spec.is_merge a b m ∧
    VectorClock.merge set_iter (PyInt <$> a) (VectorClock.mk p a) =
      (VectorClock.mk p a, Return tt).
Proof.
  destruct (merge_int set_iter set_iter_perm b (VectorClock.mk p a))
    as (m & Hab & Hm).
  destruct (merge_int set_iter set_iter_perm a (VectorClock.mk q b))
    as (m' & Hba & Hm').
  destruct (merge_int set_iter set_iter_perm a (VectorClock.mk p a))
    as (m'' & Haa & Hm'').
  simpl in *.
  assert (m' = m) as -> by (eapply is_merge_unique; [apply is_merge_comm|]; done).
  assert (m'' = a) as ->
    by (eapply is_merge_unique; [done | apply is_merge_self]).
  by exists m.
Qed.

(** C7.  A clock built by [__init__] from an initial mapping without
    negative counters has its owner's entry, with value 0 when the initial
    mapping lacked it; after any sequence of [increment] and [update] calls
    it still has that entry and no negative counter, and any further such
    sequence leaves every entry present and at least as large. *)
Theorem C7_clock_monotone (pid : K) (initial_clock : option (gmap K Z))
    (calls more_calls : list (VectorClock.call K)) :
  (∀ c, initial_clock = Some c → Spec.nonneg c) →
  let fresh_clock := VectorClock.init pid initial_clock in
  let now := VectorClock.run set_iter calls fresh_clock in
  let later := VectorClock.run set_iter more_calls now in
  (pid ∉ dom (default ∅ initial_clock) →
   VectorClock.clock fresh_clock !! pid = Some 0) ∧
  VectorClock.process_id now = pid ∧
  pid ∈ dom (VectorClock.clock now) ∧
  Spec.nonneg (VectorClock.clock now) ∧
  Spec.grows (VectorClock.clock now) (VectorClock.clock later).
Proof.
  intros Hnn fresh_clock now later.
  destruct (run_keeps set_iter calls fresh_clock) as (Hp & Hd & Hn & _).
  destruct (run_keeps set_iter more_calls now) as (_ & _ & _ & Hg).
  split; [apply init_fresh_owner|]. split; [done|]. split; [|split].
  - pose proof (Hd (init_has_owner pid initial_clock)) as Hin.
    by rewrite Hp in Hin.
  - apply Hn. by apply init_nonneg.
  - done.
Qed.

(** C5.  In any state a process reaches, [receive_message] on a message
    that has its content and a clock [r] of integer counters merges that
    clock into the local one: the new clock has, at every key of either,
    the larger of the two values (a missing one read as 0), and then one
    more at the owner.  It appends one log entry that records the message,
    that new clock, and the entry's own index as its timestamp, and it
    returns [True].  All the entries of the log carry their index. *)
Theorem C5_receive_logs_and_accepts (pid : K)
    (calls : list (VectorClockProcess.call K))
    (m : VectorClockProcess.Message K) :
  Spec.well_formed m →
  let self := VectorClockProcess.run set_iter calls
                (VectorClockProcess.init pid) in
  ∃ r merged vc',
    VectorClockProcess.msg_vector_clock m = Some (PyInt <$> r) ∧
    Spec.is_merge
      (VectorClock.clock (VectorClockProcess.vector_clock self)) r merged ∧
    vc' = VectorClock.mk pid (<[pid := get0 merged pid + 1]> merged) ∧
    VectorClock.update set_iter (PyInt <$> r)
      (VectorClockProcess.vector_clock self) = (vc', Return tt) ∧
    let log := VectorClockProcess.message_log self in
    let entry :=
      {| VectorClockProcess.log_message := m;
         VectorClockProcess.log_local_clock := VectorClock.clock vc';
         VectorClockProcess.log_timestamp := length log |} in
    VectorClockProcess.receive_message set_iter m self =
      (VectorClockProcess.mk (VectorClockProcess.process_id self) vc'
         (log ++ [entry]),
       Return true) ∧
    (log ++ [entry]) !! length log = Some entry ∧
    Spec.log_indexed (log ++ [entry]).
Proof.
  intros [Hmc [r Hr]] self.
  pose proof (process_run_owner set_iter pid calls) as Hown.
  destruct (process_run_inv set_iter pid calls) as [(Hpid & _) Hidx].
  cbv zeta in Hown. fold self in Hown, Hpid, Hidx.
  change (VectorClock.process_id (VectorClock.init pid None)) with pid in Hpid.
  destruct (update_int set_iter set_iter_perm r
              (VectorClockProcess.vector_clock self) Hown)
    as (merged & _ & Hm & _ & Hup).
  destruct (receive_message_int set_iter set_iter_perm m r self Hmc Hr Hown)
    as (vc' & Hup' & Hrecv).
  assert (Hvc : vc' = VectorClock.mk pid (<[pid := get0 merged pid + 1]> merged)).
  { rewrite Hup in Hup'. injection Hup' as <-.
    unfold VectorClock.set_clock. by rewrite Hpid. }
  exists r, merged, vc'. split; [done|]. split; [done|]. split; [done|].
  split; [done|]. split; [done|]. split.
  - rewrite lookup_app_r by done. by rewrite Nat.sub_diag.
  - by apply log_indexed_snoc.
Qed.

(** C6, as amended.  A message without its clock makes
    [VectorClockProcess.receive_message] raise [KeyError] before any merge,
    the process being left as it was, while [receive_message] of
    [vector_process.py] reads it as an empty clock, raises its own entry by
    one and returns [True].  A message whose clock has a counter that is
    not a number makes both raise [TypeError] out of the merge loop: the
    owner's entry gets no increment and the log no entry, and every entry
    of the clock is either as it was or already merged. *)
Theorem C6_malformed_message
    (self : VectorClockProcess.t K) (m : VectorClockProcess.Message K)
    (node : VectorProcess.t K) (sender : option K)
    (items : list (K * Z)) (k : K) (v : pyval) (rest : list (K * pyval)) :
  (VectorClockProcess.msg_vector_clock m = None →
   VectorClockProcess.receive_message set_iter m self =
     (self, Raise KeyError)) ∧
  (∀ rc,
     is_Some (VectorClockProcess.msg_content m) →
     VectorClockProcess.msg_vector_clock m = Some rc →
     (∃ k v, rc !! k = Some v ∧ Spec.non_numeric v) →
     ∃ vc',
       VectorClockProcess.receive_message set_iter m self =
         (VectorClockProcess.mk (VectorClockProcess.process_id self) vc'
            (VectorClockProcess.message_log self),
          Raise TypeError) ∧
       VectorClock.process_id vc' =
         VectorClock.process_id (VectorClockProcess.vector_clock self) ∧
       Spec.partly_merged
         (VectorClock.clock (VectorClockProcess.vector_clock self)) rc
         (VectorClock.clock vc')) ∧
  VectorProcess.receive_message (VectorProcess.mk_message sender None) node =
    (VectorProcess.set_clock
       (<[VectorProcess.port node :=
            get0 (VectorProcess.clock node) (VectorProcess.port node) + 1]>
          (VectorProcess.clock node)) node,
     Return true) ∧
  (Spec.non_numeric v →
   ∃ merged,
     VectorProcess.merge_incoming (Spec.int_items items) node =
       (VectorProcess.set_clock merged node, Return tt) ∧
     VectorProcess.receive_message
       (VectorProcess.mk_message sender
          (Some (Spec.int_items items ++ (k, v) :: rest))) node =
       (VectorProcess.set_clock merged node, Raise TypeError)).
Proof.
  split; [|split; [|split]].
  - intros Hnone. unfold VectorClockProcess.receive_message. unfold_M.
    rewrite Hnone. by destruct (VectorClockProcess.msg_content m).
  - intros rc [mc Hmc] Hrc Hbad.
    destruct (update_raises set_iter set_iter_perm rc
                (VectorClockProcess.vector_clock self) Hbad)
      as (vc' & Hup & Hpid & Hpart).
    exists vc'. split; [|done].
    unfold VectorClockProcess.receive_message, VectorClockProcess.on_clock.
    unfold_M. rewrite Hmc, Hrc. simpl. by rewrite Hup.
  - apply rpc_receive_message_no_clock.
  - apply rpc_receive_message_raises.
Qed.

End properties.

(** * Concrete clocks and messages *)

Ltac by_computation := apply (bool_decide_unpack _); vm_compute; exact I.

Lemma elements_order `{Countable K} (s : gset K) : elements s ≡ₚ elements s.
Proof. reflexivity. Defined.

Lemma ascending_order (s : gset Z) : Demo.ascending s ≡ₚ elements s.
Proof. apply merge_sort_Permutation. Defined.

Lemma C1_witness :
  let self := VectorClock.init 8002 None in
  let r : gmap Z Z := {[ 8001 := 1 ]} in
  8002 ∈ dom (VectorClock.clock self) ∧
  Spec.rpc_inv Demo.node8001 ∧
  NoDup [8002; 8003] ∧
  (∃ merged,
     VectorClock.merge elements (PyInt <$> r) self =
       (VectorClock.set_clock merged self, Return tt) ∧
     Spec.is_merge (VectorClock.clock self) r merged ∧
     VectorClock.update elements (PyInt <$> r) self =
       (VectorClock.set_clock (<[8002 := get0 merged 8002 + 1]> merged) self,
        Return tt) ∧
     dom (<[8002 := get0 merged 8002 + 1]> merged) =
       dom (VectorClock.clock self) ∪ dom r).
Proof.
  intros self r.
  assert (H1 : VectorClock.process_id self ∈ dom (VectorClock.clock self))
    by by_computation.
  assert (H2 : Spec.rpc_inv Demo.node8001) by (split; by_computation).
  assert (H3 : NoDup ([(8002, 4); (8003, 0)] : list (Z * Z)).*1)
    by by_computation.
  split; [exact H1|]. split; [exact H2|]. split; [exact H3|].
  exact (proj1 (C1_merge_is_max_then_increment elements elements_order
                  self r Demo.node8001 [(8002, 4); (8003, 0)] (Some 8002)
                  H1 H2 H3)).
Defined.

(** C2, as it is stated: with "self != other" read as "the two mappings are
    not the same", [{A: 1}] against [{A: 1, B: 0}] is below pointwise and is
    another mapping, and [compare] does not return BEFORE. *)
Lemma C2_counterexample :
  ¬ (VectorClock.compare elements Demo.clock_a_b0
       (VectorClock.mk "A" Demo.clock_a) = Spec.BEFORE ↔
     Spec.pointwise_le Demo.clock_a Demo.clock_a_b0 ∧
     Demo.clock_a ≠ Demo.clock_a_b0).
Proof.
  intros [_ Hback].
  assert (Hle : Spec.pointwise_le Demo.clock_a Demo.clock_a_b0)
    by by_computation.
  assert (Hne : Demo.clock_a ≠ Demo.clock_a_b0) by by_computation.
  specialize (Hback (conj Hle Hne)). vm_compute in Hback. discriminate.
Qed.

Lemma C2_witness :
  let self := VectorClock.mk "A" Demo.clock_a in
  let other : gmap string Z := {[ "A" := 1; "B" := 1 ]} in
  VectorClock.compare elements other self = Spec.BEFORE ∧
  Spec.pointwise_le Demo.clock_a other ∧
  ¬ Spec.pointwise_eq Demo.clock_a other.
Proof.
  intros self other.
  pose proof (C2_compare_classifies elements elements_order other self)
    as (Hbefore & _).
  split; [reflexivity|]. apply Hbefore. reflexivity.
Defined.

Lemma C3_witness :
  let a := VectorClock.mk "A" Demo.clock_a in
  let b := VectorClock.mk "B" ({[ "A" := 1; "B" := 1 ]} : gmap string Z) in
  VectorClock.compare elements (VectorClock.clock b) a = Spec.BEFORE ∧
  VectorClock.compare elements (VectorClock.clock a) b = Spec.AFTER.
Proof.
  intros a b.
  pose proof (C3_compare_partial_order elements elements_order a b)
    as (_ & Hswap & _).
  split; [reflexivity|]. apply Hswap. reflexivity.
Defined.

Lemma C10_witness :
  Spec.pointwise_eq Demo.clock_a Demo.clock_a_b0 ∧
  Demo.clock_a ≠ Demo.clock_a_b0 ∧
  VectorClock.compare elements Demo.clock_a_b0
    (VectorClock.mk "A" Demo.clock_a) = Spec.CONCURRENT.
Proof.
  assert (H1 : Spec.pointwise_eq Demo.clock_a Demo.clock_a_b0)
    by by_computation.
  assert (H2 : Demo.clock_a ≠ Demo.clock_a_b0) by by_computation.
  split; [exact H1|]. split; [exact H2|].
  exact (C10_padded_equal_is_concurrent elements elements_order
           Demo.clock_a_b0 (VectorClock.mk "A" Demo.clock_a) H1 H2).
Defined.

Lemma C8_witness :
  ∃ m,
    VectorClock.merge elements (PyInt <$> Demo.clock_a_b0)
      (VectorClock.mk "A" Demo.clock_a) = (VectorClock.mk "A" m, Return tt) ∧
    VectorClock.merge elements (PyInt <$> Demo.clock_a)
      (VectorClock.mk "B" Demo.clock_a_b0) = (VectorClock.mk "B" m, Return tt) ∧
    Spec.is_merge Demo.clock_a Demo.clock_a_b0 m ∧
    VectorClock.merge elements (PyInt <$> Demo.clock_a)
      (VectorClock.mk "A" Demo.clock_a) =
      (VectorClock.mk "A" Demo.clock_a, Return tt).
Proof.
  exact (C8_merge_commutative_idempotent elements elements_order
           Demo.clock_a Demo.clock_a_b0 "A" "B").
Defined.

Lemma C7_witness :
  let calls := [VectorClock.Increment;
                VectorClock.Update {[ "A" := PyInt 3; "C" := PyStr "x" ]}] in
  let now := VectorClock.run elements calls
               (VectorClock.init "B" (Some Demo.clock_a)) in
  let later := VectorClock.run elements [VectorClock.Increment] now in
  (∀ c, Some Demo.clock_a = Some c → Spec.nonneg c) ∧
  "B" ∈ dom (VectorClock.clock now) ∧
  Spec.nonneg (VectorClock.clock now) ∧
  Spec.grows (VectorClock.clock now) (VectorClock.clock later).
Proof.
  intros calls now later.
  assert (H1 : ∀ c, Some Demo.clock_a = Some c → Spec.nonneg c).
  { intros c [= <-]. by_computation. }
  split; [exact H1|].
  pose proof (C7_clock_monotone elements "B" (Some Demo.clock_a) calls
                [VectorClock.Increment] H1) as (_ & _ & Hd & Hn & Hg).
  split; [exact Hd|]. split; [exact Hn | exact Hg].
Defined.

Lemma C5_witness :
  let m : VectorClockProcess.Message string :=
    {| VectorClockProcess.msg_content := Some "Hello from A";
       VectorClockProcess.msg_sender := Some "A";
       VectorClockProcess.msg_vector_clock := Some (PyInt <$> Demo.clock_a);
       VectorClockProcess.msg_target := Some "B" |} in
  let self := VectorClockProcess.run elements
                [VectorClockProcess.ReceiveMessage m;
                 VectorClockProcess.LocalEvent]
                (VectorClockProcess.init "B") in
  let after := (VectorClockProcess.receive_message elements m self).1 in
  Spec.well_formed m ∧
  (VectorClockProcess.receive_message elements m self).2 = Return true ∧
  length (VectorClockProcess.message_log after) = 2%nat ∧
  Spec.log_indexed (VectorClockProcess.message_log after) ∧
  ∃ r merged,
    VectorClockProcess.msg_vector_clock m = Some (PyInt <$> r) ∧
    Spec.is_merge
      (VectorClock.clock (VectorClockProcess.vector_clock self)) r merged ∧
    VectorClock.clock (VectorClockProcess.vector_clock after) =
      <["B" := get0 merged "B" + 1]> merged.
Proof.
  intros m self after.
  assert (H1 : Spec.well_formed m).
  { split; [by eexists | by exists Demo.clock_a]. }
  split; [exact H1|].
  destruct (C5_receive_logs_and_accepts elements elements_order "B"
              [VectorClockProcess.ReceiveMessage m;
               VectorClockProcess.LocalEvent] m H1)
    as (r & merged & vc' & Hr & Hm & Hvc & _ & Hrecv & _ & Hlog).
  fold self in Hrecv, Hlog, Hm. unfold after. rewrite Hrecv.
  split; [reflexivity|]. split; [reflexivity|]. split; [exact Hlog|].
  exists r, merged. split; [exact Hr|]. split; [exact Hm|].
  simpl. by rewrite Hvc.
Defined.

(** C6, as it is stated, fails on both classes.  In a process with id 2 a
    message with the clock [{1: 5, 3: "x"}] raises [TypeError] when the loop
    reaches key 3, after key 1 has been written: the clock is [{2: 0, 1: 5}]
    and no longer [{2: 0}].  In [vector_process.py] a message without its
    ['clock'] key is accepted and raises the own entry. *)
Lemma C6_counterexample :
  let r := VectorClockProcess.receive_message Demo.ascending
             Demo.bad_counter Demo.process2 in
  let r' := VectorProcess.receive_message Demo.no_clock Demo.node8001 in
  (∀ s, Demo.ascending s ≡ₚ elements s) ∧
  Spec.malformed Demo.bad_counter ∧
  r.2 = Raise TypeError ∧
  VectorClock.clock (VectorClockProcess.vector_clock Demo.process2) =
    {[ 2 := 0 ]} ∧
  VectorClock.clock (VectorClockProcess.vector_clock r.1) =
    {[ 1 := 5; 2 := 0 ]} ∧
  VectorClock.clock (VectorClockProcess.vector_clock r.1) ≠
    VectorClock.clock (VectorClockProcess.vector_clock Demo.process2) ∧
  Spec.rpc_malformed Demo.no_clock ∧
  r'.2 = Return true ∧
  VectorProcess.clock Demo.node8001 !! 8001 = Some 1 ∧
  VectorProcess.clock r'.1 !! 8001 = Some 2.
Proof.
  intros r r'. split; [exact ascending_order|].
  split; [exists 3, (PyStr "x"); by split|].
  split; [by vm_compute|].
  split; [by_computation|]. split; [by_computation|].
  split; [by_computation|]. split; [exact I|].
  split; [by vm_compute|]. split; by vm_compute.
Qed.

Lemma C6_witness :
  let r := VectorClockProcess.receive_message Demo.ascending
             Demo.bad_counter Demo.process2 in
  is_Some (VectorClockProcess.msg_content Demo.bad_counter) ∧
  (∃ k v, ({[ 1 := PyInt 5; 3 := PyStr "x" ]} : gmap Z pyval) !! k = Some v ∧
          Spec.non_numeric v) ∧
  r.2 = Raise TypeError ∧
  VectorClockProcess.message_log r.1 = [] ∧
  Spec.partly_merged {[ 2 := 0 ]} {[ 1 := PyInt 5; 3 := PyStr "x" ]}
    (VectorClock.clock (VectorClockProcess.vector_clock r.1)).
Proof.
  intros r.
  assert (H1 : is_Some (VectorClockProcess.msg_content Demo.bad_counter))
    by by eexists.
  assert (H2 : ∃ k v, ({[ 1 := PyInt 5; 3 := PyStr "x" ]} : gmap Z pyval) !! k
                      = Some v ∧ Spec.non_numeric v)
    by (exists 3, (PyStr "x"); by split).
  split; [exact H1|]. split; [exact H2|].
  destruct (C6_malformed_message Demo.ascending ascending_order
              Demo.process2 Demo.bad_counter Demo.node8001 None [] 0 PyNone [])
    as (_ & Hbad & _).
  destruct (Hbad _ H1 eq_refl H2) as (vc' & Hrecv & _ & Hpart).
  unfold r. rewrite Hrecv. split; [reflexivity|]. split; [reflexivity|].
  exact Hpart.
Defined.



(** * Further properties *)

(** ** Comparing and merging clocks *)

Section more_vector_clock.
Context `{Countable K}.
Variable set_iter : gset K → list K.
Hypothesis set_iter_perm : ∀ s, set_iter s ≡ₚ elements s.
Implicit Types (self : VectorClock.t K) (a b c r : gmap K Z) (k : K).

Lemma pointwise_le_all a b :
  Spec.pointwise_le a b ↔ ∀ k, get0 a k ≤ get0 b k.
Proof.
  split; [|by intros Hall k _].
  intros Hle k. destruct (decide (k ∈ dom a ∪ dom b)) as [Hk|Hk]; [auto|].
  apply not_elem_of_union in Hk as [Ha Hb].
  rewrite !get0_not_dom by done. lia.
Qed.

Lemma pointwise_eq_all a b :
  Spec.pointwise_eq a b ↔ ∀ k, get0 a k = get0 b k.
Proof.
  split; [|by intros Hall k _].
  intros Heq k. destruct (decide (k ∈ dom a ∪ dom b)) as [Hk|Hk]; [auto|].
  apply not_elem_of_union in Hk as [Ha Hb].
  by rewrite !get0_not_dom.
Qed.

Lemma lookup_get0 a k :
  a !! k = if decide (k ∈ dom a) then Some (get0 a k) else None.
Proof.
  case_decide as Hk.
  - apply elem_of_dom in Hk as [v Hv]. by rewrite (get0_Some _ _ _ Hv).
  - by apply not_elem_of_dom.
Qed.

Lemma map_eq_get0 a b :
  dom a = dom b → (∀ k, get0 a k = get0 b k) → a = b.
Proof.
  intros Hdom Hget. apply map_eq. intros k.
  by rewrite !lookup_get0, Hdom, Hget.
Qed.

Lemma is_merge_get0 a b m k :
  Spec.is_merge a b m → get0 m k = Z.max (get0 a k) (get0 b k).
Proof.
  intros [Hdom Hm]. destruct (decide (k ∈ dom a ∪ dom b)) as [Hk|Hk].
  - by rewrite (get0_Some _ _ _ (Hm k Hk)).
  - rewrite (get0_not_dom m) by (by rewrite Hdom).
    apply not_elem_of_union in Hk as [Ha Hb].
    by rewrite !get0_not_dom.
Qed.

(** [update] on integer counters, entry by entry. *)
Lemma update_int_get0 r self :
  VectorClock.process_id self ∈ dom (VectorClock.clock self) →
  ∃ self',
    VectorClock.update set_iter (PyInt <$> r) self = (self', Return tt) ∧
    VectorClock.process_id self' = VectorClock.process_id self ∧
    dom (VectorClock.clock self') = dom (VectorClock.clock self) ∪ dom r ∧
    ∀ k, get0 (VectorClock.clock self') k =
         Z.max (get0 (VectorClock.clock self) k) (get0 r k) +
         (if decide (k = VectorClock.process_id self) then 1 else 0).
Proof.
  intros Hown.
  destruct (update_int set_iter set_iter_perm r self Hown)
    as (merged & _ & Hm & _ & Hup).
  eexists. split; [exact Hup|]. split; [done|]. simpl. split.
  - rewrite dom_insert_L. destruct Hm as [-> _].
    apply subseteq_union_1_L, singleton_subseteq_l, elem_of_union. by left.
  - intros k. case_decide as Hk.
    + subst k. by rewrite get0_insert_eq, (is_merge_get0 _ _ _ _ Hm).
    + rewrite get0_insert_ne by done.
      rewrite (is_merge_get0 _ _ _ _ Hm). lia.
Qed.

Lemma compare_before_trans a b c (p q : K) :
  VectorClock.compare set_iter b (VectorClock.mk p a) = Some (-1) →
  VectorClock.compare set_iter c (VectorClock.mk q b) = Some (-1) →
  VectorClock.compare set_iter c (VectorClock.mk p a) = Some (-1).
Proof.
  rewrite !(compare_before_iff set_iter set_iter_perm). simpl.
  rewrite !pointwise_le_all, !pointwise_eq_all.
  intros [Hab Hnab] [Hbc Hnbc]. split.
  - intros k. specialize (Hab k). specialize (Hbc k). lia.
  - intros Hac. apply Hnab. intros k.
    specialize (Hab k). specialize (Hbc k). specialize (Hac k). lia.
Qed.

(** X1.  "Happens before" is transitive: if [compare] puts [a] before [b]
    and [b] before [c], it puts [a] before [c]. *)
Theorem X1_before_transitive a b c (p q : K) :
  VectorClock.compare set_iter b (VectorClock.mk p a) = Some (-1) →
  VectorClock.compare set_iter c (VectorClock.mk q b) = Some (-1) →
  VectorClock.compare set_iter c (VectorClock.mk p a) = Some (-1).
Proof. apply compare_before_trans. Qed.

(** X2.  Swapping the two clocks of [compare] swaps BEFORE and AFTER and
    keeps CONCURRENT and EQUAL: the result is negated. *)
Theorem X2_compare_swap_negates (a b : VectorClock.t K) :
  VectorClock.compare set_iter (VectorClock.clock a) b =
  Z.opp <$> VectorClock.compare set_iter (VectorClock.clock b) a.
Proof.
  destruct (compare_spec set_iter set_iter_perm (VectorClock.clock a) b)
    as [[? Hr]|[(?&?&?&Hr)|[(?&?&?&Hr)|[(?&?&?&Hr)|(?&?&?&Hr)]]]];
  destruct (compare_spec set_iter set_iter_perm (VectorClock.clock b) a)
    as [[? Hr']|[(?&?&?&Hr')|[(?&?&?&Hr')|[(?&?&?&Hr')|(?&?&?&Hr')]]]];
  cbv zeta in Hr, Hr'; rewrite Hr, Hr'; simpl; try done;
    exfalso; intuition congruence.
Qed.

(** X3.  The order in which Python visits the set of keys does not show
    in the result: any two enumerations give the same [compare], and the
    same [update] on integer counters. *)
Theorem X3_set_order_immaterial
    (set_iter' : gset K → list K) (other r : gmap K Z) self :
  (∀ s, set_iter' s ≡ₚ elements s) →
  VectorClock.compare set_iter other self =
    VectorClock.compare set_iter' other self ∧
  VectorClock.update set_iter (PyInt <$> r) self =
    VectorClock.update set_iter' (PyInt <$> r) self.
Proof.
  intros Hperm'. split.
  - destruct (compare_spec set_iter set_iter_perm other self)
      as [[? Hr]|[(?&?&?&Hr)|[(?&?&?&Hr)|[(?&?&?&Hr)|(?&?&?&Hr)]]]];
    destruct (compare_spec set_iter' Hperm' other self)
      as [[? Hr']|[(?&?&?&Hr')|[(?&?&?&Hr')|[(?&?&?&Hr')|(?&?&?&Hr')]]]];
    cbv zeta in Hr, Hr'; rewrite Hr, Hr'; try done;
      exfalso; intuition congruence.
  - destruct (merge_int set_iter set_iter_perm r self) as (m & Hrun & Hm).
    destruct (merge_int set_iter' Hperm' r self) as (m' & Hrun' & Hm').
    assert (m' = m) as -> by by eapply is_merge_unique.
    unfold VectorClock.update. unfold_M. by rewrite Hrun, Hrun'.
Qed.

Lemma update_before r self (p : K) :
  VectorClock.process_id self ∈ dom (VectorClock.clock self) →
  ∃ self',
    VectorClock.update set_iter (PyInt <$> r) self = (self', Return tt) ∧
    VectorClock.compare set_iter (VectorClock.clock self')
      (VectorClock.mk p r) = Some (-1) ∧
    VectorClock.compare set_iter (VectorClock.clock self') self = Some (-1).
Proof.
  intros Hown.
  destruct (update_int_get0 r self Hown) as (self' & Hup & _ & _ & Hget).
  exists self'. split; [done|].
  rewrite !(compare_before_iff set_iter set_iter_perm). simpl.
  rewrite !pointwise_le_all, !pointwise_eq_all.
  split; (split;
    [intros k; rewrite Hget; case_decide; lia
    |intros Heq; specialize (Heq (VectorClock.process_id self));
     rewrite Hget, decide_True in Heq by done; lia]).
Qed.


(** X4.  After [update] with a received clock of integer counters, both
    the received clock and the local clock as it was compare as BEFORE
    the new local clock. *)
Theorem X4_update_after_both r self (p : K) :
  VectorClock.process_id self ∈ dom (VectorClock.clock self) →
  ∃ self',
    VectorClock.update set_iter (PyInt <$> r) self = (self', Return tt) ∧
    VectorClock.compare set_iter (VectorClock.clock self')
      (VectorClock.mk p r) = Some (-1) ∧
    VectorClock.compare set_iter (VectorClock.clock self') self = Some (-1).
Proof. apply update_before. Qed.

(** X5.  Two received clocks that know no more of the receiver's own
    counter than the receiver does can be merged in either order: the
    two [update] calls leave the same clock. *)
Theorem X5_update_commutes (r1 r2 : gmap K Z) self :
  let owner := VectorClock.process_id self in
  owner ∈ dom (VectorClock.clock self) →
  get0 r1 owner ≤ get0 (VectorClock.clock self) owner →
  get0 r2 owner ≤ get0 (VectorClock.clock self) owner →
  ∃ final,
    VectorClock.run set_iter
      [VectorClock.Update (PyInt <$> r1); VectorClock.Update (PyInt <$> r2)]
      self = final ∧
    VectorClock.run set_iter
      [VectorClock.Update (PyInt <$> r2); VectorClock.Update (PyInt <$> r1)]
      self = final ∧
    dom (VectorClock.clock final) =
      dom (VectorClock.clock self) ∪ dom r1 ∪ dom r2 ∧
    get0 (VectorClock.clock final) owner =
      get0 (VectorClock.clock self) owner + 2.
Proof.
  intros owner Hown H1 H2.
  destruct (update_int_get0 r1 self Hown) as (s1 & Hu1 & Hp1 & Hd1 & Hg1).
  destruct (update_int_get0 r2 self Hown) as (s2 & Hu2 & Hp2 & Hd2 & Hg2).
  assert (Ho1 : VectorClock.process_id s1 ∈ dom (VectorClock.clock s1)).
  { rewrite Hp1, Hd1. apply elem_of_union. by left. }
  assert (Ho2 : VectorClock.process_id s2 ∈ dom (VectorClock.clock s2)).
  { rewrite Hp2, Hd2. apply elem_of_union. by left. }
  destruct (update_int_get0 r2 s1 Ho1) as (s12 & Hu12 & Hp12 & Hd12 & Hg12).
  destruct (update_int_get0 r1 s2 Ho2) as (s21 & Hu21 & Hp21 & Hd21 & Hg21).
  assert (Heq : s21 = s12).
  { destruct s12 as [p12 c12], s21 as [p21 c21]. simpl in *.
    f_equal; [congruence|]. apply map_eq_get0.
    - rewrite Hd12, Hd21, Hd1, Hd2. apply set_eq. intros x.
      rewrite !elem_of_union. tauto.
    - intros k. rewrite Hg12, Hg21, Hg1, Hg2, Hp1, Hp2.
      fold owner. case_decide; [subst k|]; lia. }
  exists s12. unfold VectorClock.run. simpl.
  rewrite Hu1, Hu2. simpl. rewrite Hu12, Hu21. simpl.
  split; [done|]. split; [done|]. split.
  - by rewrite Hd12, Hd1.
  - rewrite Hg12, Hg1, Hp1. fold owner. rewrite !decide_True by done. lia.
Qed.

(** X6.  [__init__] keeps every entry of the initial clock as it is, adds
    only the owner's key, and a clock built again from its own snapshot is
    the same clock. *)
Theorem X6_init_keeps_entries (pid : K) (ic : gmap K Z) self :
  VectorClock.process_id self ∈ dom (VectorClock.clock self) →
  (∀ k v, ic !! k = Some v →
          VectorClock.clock (VectorClock.init pid (Some ic)) !! k = Some v) ∧
  dom (VectorClock.clock (VectorClock.init pid (Some ic))) = dom ic ∪ {[pid]} ∧
  VectorClock.init (VectorClock.process_id self)
    (Some (VectorClock.get_clock self)) = self.
Proof.
  intros Hown.
  assert (Hc : ∀ c : gmap K Z, (if decide (c = ∅) then ∅ else c) = c)
    by (intros c'; by case_decide).
  unfold VectorClock.init. rewrite !Hc. simpl. split; [|split].
  - intros k v Hk. case_decide as Hpid; [done|].
    rewrite lookup_insert_ne; [done|]. intros <-.
    apply Hpid, elem_of_dom. eauto.
  - case_decide as Hpid.
    + apply set_eq. intros x. rewrite elem_of_union, elem_of_singleton.
      split; [auto | by intros [?| ->]].
    + rewrite dom_insert_L. apply union_comm_L.
  - unfold VectorClock.get_clock. rewrite decide_True by done.
    by destruct self.
Qed.
End more_vector_clock.

(** ** Runs of a [VectorClockProcess] *)

Section more_process.
Context `{Countable K}.
Variable set_iter : gset K → list K.
Hypothesis set_iter_perm : ∀ s, set_iter s ≡ₚ elements s.
Import VectorClockProcess.
Implicit Types (self : VectorClockProcess.t K) (m : Message K).

Lemma all_int_fmap (rc : gmap K pyval) :
  map_Forall (λ _ v, Run.is_int v = true) rc →
  rc = PyInt <$> (Run.unint <$> rc).
Proof.
  intros Hall. apply map_eq. intros k. rewrite !lookup_fmap.
  destruct (rc !! k) as [v|] eqn:Hk; [|done]. simpl.
  specialize (Hall k v Hk). by destruct v.
Qed.

Lemma not_all_int (rc : gmap K pyval) :
  ¬ map_Forall (λ _ v, Run.is_int v = true) rc →
  ∃ k v, rc !! k = Some v ∧ Spec.non_numeric v.
Proof.
  intros Hnot. apply map_not_Forall in Hnot; [|apply _].
  destruct Hnot as (k & v & Hk & Hv). exists k, v. split; [done|].
  by destruct v.
Qed.

Lemma int_no_non_numeric (r : gmap K Z) k v :
  (PyInt <$> r) !! k = Some v → ¬ Spec.non_numeric v.
Proof.
  rewrite lookup_fmap. destruct (r !! k); simpl; intros [= <-]. auto.
Qed.

Lemma acceptable_well_formed m :
  Run.acceptable m = true ↔ Spec.well_formed m.
Proof.
  unfold Run.acceptable, Spec.well_formed.
  destruct (msg_content m) as [mc|]; [|split; [done | by intros [[? [=]] _]]].
  destruct (msg_vector_clock m) as [rc|];
    [|split; [done | by intros [_ [? [=]]]]].
  rewrite bool_decide_eq_true. split.
  - intros Hall. split; [by eexists|].
    exists (Run.unint <$> rc). f_equal. by apply all_int_fmap.
  - intros [_ [r [= ->]]] k v Hk.
    rewrite lookup_fmap in Hk. by destruct (r !! k); simplify_eq/=.
Qed.

(** The four ways [receive_message] can go. *)
Lemma receive_message_cases m self :
  VectorClock.process_id (vector_clock self) ∈
    dom (VectorClock.clock (vector_clock self)) →
  (Run.acceptable m = true ∧
   ∃ r vc',
     msg_vector_clock m = Some (PyInt <$> r) ∧
     VectorClock.update set_iter (PyInt <$> r) (vector_clock self) =
       (vc', Return tt) ∧
     receive_message set_iter m self =
       (mk (process_id self) vc'
          (message_log self ++
             [mk_entry m (VectorClock.clock vc') (length (message_log self))]),
        Return true)) ∨
  (Run.acceptable m = false ∧
   (msg_content m = None ∨ msg_vector_clock m = None) ∧
   receive_message set_iter m self = (self, Raise KeyError)) ∨
  (Run.acceptable m = false ∧
   is_Some (msg_content m) ∧
   ∃ rc vc',
     msg_vector_clock m = Some rc ∧
     (∃ k v, rc !! k = Some v ∧ Spec.non_numeric v) ∧
     receive_message set_iter m self =
       (mk (process_id self) vc' (message_log self), Raise TypeError) ∧
     Spec.keeps (vector_clock self) vc').
Proof.
  intros Hown.
  destruct (Run.acceptable m) eqn:Hacc.
  - left. split; [done|].
    pose proof (proj1 (acceptable_well_formed m) Hacc) as [Hmc [r Hr]].
    destruct (receive_message_int set_iter set_iter_perm m r self Hmc Hr Hown)
      as (vc' & Hup & Hrecv).
    by exists r, vc'.
  - right. unfold Run.acceptable in Hacc.
    destruct (msg_content m) as [mc|] eqn:Hmc.
    + destruct (msg_vector_clock m) as [rc|] eqn:Hrc.
      * right. split; [done|]. split; [by eexists|].
        apply bool_decide_eq_false in Hacc. apply not_all_int in Hacc.
        destruct (update_raises set_iter set_iter_perm rc (vector_clock self)
                    Hacc) as (vc' & Hup & _ & _).
        exists rc, vc'. split; [done|]. split; [done|]. split.
        -- unfold receive_message, on_clock. unfold_M.
           rewrite Hmc, Hrc. simpl. by rewrite Hup.
        -- pose proof (update_keeps set_iter rc (vector_clock self)) as Hk.
           by rewrite Hup in Hk.
      * left. split; [done|]. split; [by right|].
        unfold receive_message. unfold_M. by rewrite Hmc, Hrc.
    + left. split; [done|]. split; [by left|].
      unfold receive_message. unfold_M. by rewrite Hmc.
Qed.

(** X7.  In any state a process reaches, [receive_message] raises
    [KeyError] exactly when the content or the clock of the message is
    missing.  It returns [True] on every message that has its content and a
    clock of integer counters; it raises [TypeError] whenever both are
    there and some counter is a string or [None]; and whenever it returns
    [True], both were there and no counter was a string or [None]. *)
Theorem X7_receive_outcome (pid : K) (calls : list (call K)) m :
  let self := run set_iter calls (init pid) in
  let out := (receive_message set_iter m self).2 in
  (out = Raise KeyError ↔
   msg_content m = None ∨ msg_vector_clock m = None) ∧
  (Spec.well_formed m → out = Return true) ∧
  (is_Some (msg_content m) →
   ∀ rc, msg_vector_clock m = Some rc →
         (∃ k v, rc !! k = Some v ∧ Spec.non_numeric v) →
         out = Raise TypeError) ∧
  (out = Return true →
   is_Some (msg_content m) ∧
   ∃ rc, msg_vector_clock m = Some rc ∧
         ∀ k v, rc !! k = Some v → ¬ Spec.non_numeric v).
Proof.
  intros self out. unfold out.
  destruct (receive_message_cases m self (process_run_owner set_iter pid calls))
    as [(Hacc & r & vc' & Hr & _ & ->)
       |[(Hacc & Hmiss & ->)
        |(Hacc & Hmc & rc & vc' & Hrc & Hbad & -> & _)]]; simpl.
  - pose proof (proj1 (acceptable_well_formed m) Hacc) as [Hmc _].
    split; [|split; [done|split]].
    + split; [done|].
      intros [Hn|Hn]; [rewrite Hn in Hmc; by destruct Hmc | congruence].
    + intros _ rc Hrc (k & v & Hk & Hv).
      assert (rc = PyInt <$> r) as -> by congruence.
      by destruct (int_no_non_numeric r k v Hk).
    + intros _. split; [done|]. exists (PyInt <$> r). split; [done|].
      intros k v Hk. by apply (int_no_non_numeric r k v).
  - split; [by split|]. split; [|split; [|done]].
    + intros Hwf. apply acceptable_well_formed in Hwf. congruence.
    + intros Hmc rc Hrc _.
      destruct Hmiss as [Hn|Hn];
        [rewrite Hn in Hmc; by destruct Hmc | congruence].
  - split; [|split; [|split; [done|done]]].
    + split; [done|].
      intros [Hn|Hn]; [rewrite Hn in Hmc; by destruct Hmc | congruence].
    + intros Hwf. apply acceptable_well_formed in Hwf. congruence.
Qed.

(** *** Events that are not receptions *)

Lemma local_event_Some self v :
  let vc := vector_clock self in
  VectorClock.clock vc !! VectorClock.process_id vc = Some v →
  local_event self =
    (mk (process_id self)
        (VectorClock.set_clock
           (<[VectorClock.process_id vc := v + 1]> (VectorClock.clock vc)) vc)
        (message_log self),
     Return tt).
Proof.
  intros vc Hv. unfold local_event, on_clock. unfold_M.
  fold vc. by rewrite (increment_Some vc v Hv).
Qed.

Lemma step_not_receive_log self c :
  Run.is_receive c = false →
  message_log (step set_iter self c) = message_log self.
Proof.
  destruct c as [|mc tp|m]; [| |done]; intros _; simpl.
  - unfold local_event. unfold_M.
    pose proof (on_clock_log VectorClock.increment self) as (Hlog & _).
    by destruct (on_clock VectorClock.increment self) as [s1 [v|e]].
  - unfold send_message. unfold_M.
    pose proof (on_clock_log VectorClock.increment self) as (Hlog & _).
    by destruct (on_clock VectorClock.increment self) as [s1 [v|e]].
Qed.




(** *** What the log holds *)

Lemma step_log_messages self c :
  VectorClock.process_id (vector_clock self) ∈
    dom (VectorClock.clock (vector_clock self)) →
  log_message <$> message_log (step set_iter self c) =
  (log_message <$> message_log self) ++
    filter (λ m, Run.acceptable m) (Run.received [c]).
Proof.
  intros Hown. destruct (Run.is_receive c) eqn:Hc.
  - destruct c as [| |m]; try done. simpl.
    destruct (receive_message_cases m self Hown)
      as [(Hacc & r & vc' & _ & _ & ->)
         |[(Hacc & _ & ->)|(Hacc & _ & rc & vc' & _ & _ & -> & _)]]; simpl.
    + rewrite filter_cons_True by (simpl; by rewrite Hacc).
      by rewrite fmap_app.
    + rewrite filter_cons_False by (simpl; rewrite Hacc; intros []).
      by rewrite app_nil_r.
    + rewrite filter_cons_False by (simpl; rewrite Hacc; intros []).
      by rewrite app_nil_r.
  - rewrite (step_not_receive_log self c Hc).
    destruct c; try done; simpl; by rewrite app_nil_r.
Qed.

Lemma log_messages_filter (pid : K) (calls : list (call K)) :
  log_message <$> message_log (run set_iter calls (init pid)) =
  filter (λ m, Run.acceptable m) (Run.received calls).
Proof.
  induction calls as [|c calls IH] using rev_ind; [done|].
  unfold run. rewrite foldl_app. simpl.
  fold (run set_iter calls (init pid)).
  rewrite step_log_messages by apply process_run_owner.
  unfold Run.received. rewrite omap_app, filter_app.
  by rewrite IH.
Qed.

Lemma filter_all {A} (P : A → Prop) `{!∀ x, Decision (P x)} (l : list A) :
  Forall P l → filter P l = l.
Proof.
  induction 1 as [|x l Hx _ IH]; [done|].
  by rewrite filter_cons_True, IH.
Qed.

(** X9.  The log of a process holds only messages that were handed to
    [receive_message], in the order of arrival; every such message that
    had its content and a clock of integer counters is in it, in that
    order; and when all of them had, the log holds exactly the messages
    received, one entry each.  Sends and local events add nothing. *)
Theorem X9_log_records_arrivals (pid : K) (calls : list (call K)) :
  let logged :=
    log_message <$> message_log (run set_iter calls (init pid)) in
  logged `sublist_of` Run.received calls ∧
  filter (λ m, Run.acceptable m) (Run.received calls) `sublist_of` logged ∧
  (Forall (λ m, Run.acceptable m) (Run.received calls) →
   logged = Run.received calls).
Proof.
  intros logged. unfold logged. rewrite log_messages_filter.
  split; [apply sublist_filter|]. split; [done|].
  apply filter_all.
Qed.





(** *** Processes that receive nothing *)

Lemma run_no_receive (pid : K) calls :
  forallb (λ c, negb (Run.is_receive c)) calls = true →
  run set_iter calls (init pid) =
    mk pid (VectorClock.mk pid {[ pid := Z.of_nat (length calls) ]}) [].
Proof.
  induction calls as [|c calls IH] using rev_ind; intros Hall.
  - unfold run, init, VectorClock.init. simpl.
    rewrite decide_False by (rewrite dom_empty_L; apply not_elem_of_empty).
    by rewrite insert_empty.
  - rewrite forallb_app in Hall. apply andb_true_iff in Hall as [Hall Hc].
    simpl in Hc. rewrite andb_true_r in Hc.
    unfold run. rewrite foldl_app. simpl.
    fold (run set_iter calls (init pid)). rewrite (IH Hall).
    rewrite length_app, Nat.add_1_r, Nat2Z.inj_succ.
    set (self := mk pid (VectorClock.mk pid
                           {[ pid := Z.of_nat (length calls) ]}) []).
    assert (Hv : VectorClock.clock (vector_clock self)
                 !! VectorClock.process_id (vector_clock self)
                 = Some (Z.of_nat (length calls)))
      by apply lookup_singleton_eq.
    destruct c as [|mc tp|m]; [| |done]; simpl.
    + rewrite (local_event_Some self _ Hv). simpl.
      unfold VectorClock.set_clock. simpl.
      by rewrite insert_singleton_eq.
    + rewrite (send_message_Some self mc tp _ Hv). simpl.
      unfold VectorClock.set_clock. simpl.
      by rewrite insert_singleton_eq.
Qed.

(** X11.  A process that has received nothing has the clock
    [{pid: n}], [n] being the number of local events and sends it made,
    and an empty log. *)
Theorem X11_isolated_clock_counts (pid : K) (calls : list (call K)) :
  forallb (λ c, negb (Run.is_receive c)) calls = true →
  get_clock_state (run set_iter calls (init pid)) =
    {[ pid := Z.of_nat (length calls) ]} ∧
  message_log (run set_iter calls (init pid)) = [].
Proof. intros Hall. by rewrite (run_no_receive pid calls Hall). Qed.

(** X12.  Two distinct processes that each made at least one event and
    received nothing compare as CONCURRENT. *)
Theorem X12_isolated_concurrent (p q : K) (calls_p calls_q : list (call K)) :
  p ≠ q → calls_p ≠ [] → calls_q ≠ [] →
  forallb (λ c, negb (Run.is_receive c)) calls_p = true →
  forallb (λ c, negb (Run.is_receive c)) calls_q = true →
  compare_with_other set_iter
    (get_clock_state (run set_iter calls_q (init q)))
    (run set_iter calls_p (init p)) = Some 0.
Proof.
  intros Hpq Hp Hq Hallp Hallq.
  rewrite (run_no_receive p calls_p Hallp), (run_no_receive q calls_q Hallq).
  unfold compare_with_other, get_clock_state, VectorClock.get_clock. simpl.
  assert (Hnp : (0 < length calls_p)%nat) by (destruct calls_p; simpl; [done | lia]).
  assert (Hnq : (0 < length calls_q)%nat) by (destruct calls_q; simpl; [done | lia]).
  apply (compare_concurrent_iff set_iter set_iter_perm). simpl. split.
  - intros Heq. apply (f_equal (λ c, c !! p)) in Heq.
    rewrite lookup_singleton_eq, lookup_singleton_ne in Heq by done. done.
  - left. rewrite !pointwise_le_all. split; intros Hle.
    + specialize (Hle p). unfold get0 in Hle.
      rewrite lookup_singleton_eq, lookup_singleton_ne in Hle by done.
      simpl in Hle. lia.
    + specialize (Hle q). unfold get0 in Hle.
      rewrite lookup_singleton_eq, lookup_singleton_ne in Hle by done.
      simpl in Hle. lia.
Qed.

(** *** Messages carry causality along *)


End more_process.

(** ** Logged snapshots on the heap *)

Section more_store.
Context `{Countable K}.
Variable set_iter : gset K → list K.
Import Store.
Implicit Types (self : Store.t K) (s : Store.state K).

Lemma log_prefix_bind {A B} (m : M (state K) A) (k : A → M (state K) B) :
  (∀ s, message_log s `prefix_of` message_log (m s).1) →
  (∀ a s, message_log s `prefix_of` message_log (k a s).1) →
  ∀ s, message_log s `prefix_of` message_log ((m ≫= k) s).1.
Proof.
  intros Hm Hk s. unfold_M. specialize (Hm s).
  destruct (m s) as [s1 [a|e]]; simpl in *; [|done].
  etrans; [exact Hm | apply Hk].
Qed.

Lemma log_prefix_on_dict {A} self (m : M (VectorClock.t K) A) s :
  message_log s `prefix_of` message_log (on_dict self m s).1.
Proof. unfold on_dict. by destruct (m _). Qed.

Lemma log_prefix_dict_copy l s :
  message_log s `prefix_of` message_log (dict_copy l s).1.
Proof. done. Qed.

Lemma log_prefix_getitem {A} (o : option A) s :
  message_log s `prefix_of` message_log ((getitem o : M _ A) s).1.
Proof. by destruct o. Qed.

Lemma log_prefix_step self s c :
  message_log s `prefix_of` message_log (step set_iter self s c).
Proof.
  destruct c as [|mc tp|m]; simpl; revert s.
  - apply log_prefix_bind; [intros s; apply log_prefix_on_dict | done].
  - apply log_prefix_bind; [intros s; apply log_prefix_on_dict|].
    intros _. apply log_prefix_bind; [apply log_prefix_dict_copy | done].
  - apply log_prefix_bind; [intros s; apply log_prefix_getitem|].
    intros _. apply log_prefix_bind; [intros s; apply log_prefix_getitem|].
    intros rc. apply log_prefix_bind; [intros s; apply log_prefix_on_dict|].
    intros _. apply log_prefix_bind; [apply log_prefix_dict_copy|].
    intros l0. apply log_prefix_bind; [apply log_prefix_dict_copy|].
    intros l1. apply log_prefix_bind; [|done].
    intros s. simpl. by apply prefix_app_r.
Qed.

Lemma log_prefix_run self cs s :
  message_log s `prefix_of` message_log (run set_iter self cs s).
Proof.
  revert s. induction cs as [|c cs IH]; intros s; [done|].
  simpl. etrans; [apply log_prefix_step | apply IH].
Qed.

(** X14.  A logged clock is a copy in its own right: in any state a
    process reaches, the entries already in the log stay where they are,
    each refers to a dictionary that is not the clock's, and no later call
    changes what that dictionary holds. *)
Theorem X14_logged_clocks_stay (pid : K)
    (calls more_calls : list (VectorClockProcess.call K)) :
  let obj := (init pid).1 in
  let s := run set_iter obj calls (init pid).2 in
  let s' := run set_iter obj more_calls s in
  message_log s `prefix_of` message_log s' ∧
  ∀ e, e ∈ message_log s →
       log_local_clock e ≠ clock obj ∧
       is_Some (heap s !! log_local_clock e) ∧
       heap s' !! log_local_clock e = heap s !! log_local_clock e.
Proof.
  intros obj s s'. split; [apply log_prefix_run|].
  destruct (erase_init_run set_iter pid calls) as [_ [_ Hlog]].
  fold obj s in Hlog.
  destruct (frames_run set_iter obj more_calls s) as [_ Hkeep].
  intros e He. destruct (Hlog e He) as [Hin Hne].
  split; [done|]. split; [by apply elem_of_dom|]. by apply Hkeep.
Qed.
End more_store.

(** ** More on the XML-RPC clock *)

Section more_rpc.
Context `{Countable K}.
Import VectorProcess.
Implicit Types (self : VectorProcess.t K) (k : K).

Lemma merge_incoming_grows incoming self :
  Spec.grows (clock self) (clock (merge_incoming incoming self).1) ∧
  (∀ k, get0 (clock self) k ≤ get0 (clock (merge_incoming incoming self).1) k) ∧
  port (merge_incoming incoming self).1 = port self.
Proof.
  revert self. induction incoming as [|[p v] rest IH]; intros self.
  { split; [apply grows_refl|]. split; [intros k; simpl; lia | done]. }
  simpl. unfold_M.
  destruct (py_max (get0 (clock self) p) v) as [m|e] eqn:Hmax; simpl.
  - apply py_max_Return in Hmax as (z & _ & ->).
    destruct (IH (set_clock (<[p := Z.max (get0 (clock self) p) z]>
                               (clock self)) self)) as (Hg & Hle & Hp).
    split; [|split; [|done]].
    + eapply grows_trans; [|exact Hg]. apply grows_insert. lia.
    + intros k. etrans; [|apply Hle]. simpl.
      destruct (decide (p = k)) as [<-|Hne].
      * rewrite get0_insert_eq. lia.
      * by rewrite get0_insert_ne.
  - split; [apply grows_refl|]. split; [intros k; lia | done].
Qed.

Lemma bump_own_grows self :
  Spec.grows (clock self) (clock (bump_own self).1).
Proof. unfold bump_own. unfold_M. simpl. apply grows_insert. lia. Qed.

Lemma rpc_step_grows self c :
  Spec.grows (clock self) (clock (step self c)).
Proof.
  destruct c as [|rp|m]; simpl.
  - apply bump_own_grows.
  - apply grows_refl.
  - unfold receive_message. unfold_M.
    destruct (merge_incoming_grows (default [] (msg_clock m)) self)
      as (Hg & _ & _).
    destruct (merge_incoming _ self) as [s1 [[]|e]]; simpl in *; [|done].
    eapply grows_trans; [exact Hg | apply bump_own_grows].
Qed.

Lemma rpc_run_grows cs self : Spec.grows (clock self) (clock (run cs self)).
Proof.
  revert self. induction cs as [|c cs IH]; intros self; [apply grows_refl|].
  simpl. eapply grows_trans; [apply rpc_step_grows | apply IH].
Qed.

(** X15.  The XML-RPC clock starts with an entry 0 for every peer and for
    its own port, also when the port is not among the peers; whatever is
    called on it afterwards, with whatever messages, it keeps its port and
    its own entry, no counter is negative, and no entry is lost or goes
    down. *)
Theorem X15_rpc_clock_monotone (p : K) (peers : option (list K))
    (calls more_calls : list (call K)) :
  let start := init p peers in
  let now := run calls start in
  let later := run more_calls now in
  dom (clock start) = list_to_set (default [] peers) ∪ {[p]} ∧
  (∀ k, k ∈ dom (clock start) → clock start !! k = Some 0) ∧
  port now = p ∧
  p ∈ dom (clock now) ∧
  Spec.nonneg (clock now) ∧
  Spec.grows (clock now) (clock later).
Proof.
  intros start now later.
  destruct (rpc_run_inv p peers calls) as [[Hin Hnn] Hport].
  fold start now in Hin, Hnn, Hport.
  split; [apply dom_gset_to_gmap|]. split.
  - intros k Hk. unfold start, init in *. simpl in *.
    rewrite dom_gset_to_gmap in Hk. by apply lookup_gset_to_gmap_Some.
  - split; [done|]. split; [by rewrite <-Hport at 1|].
    split; [done | apply rpc_run_grows].
Qed.

(** X16.  [receive_message] on a clock of integer counters always returns
    [True]; afterwards every received counter is at most the local one for
    its key, no local counter has gone down, the own counter has gone up by
    at least one, and the keys that are neither in the message nor the own
    port are as they were. *)
Theorem X16_rpc_receive_dominates
    (items : list (K * Z)) (sender : option K) self :
  ∃ self',
    receive_message (mk_message sender (Some (Spec.int_items items))) self =
      (self', Return true) ∧
    port self' = port self ∧
    (∀ k v, (k, v) ∈ items → v ≤ get0 (clock self') k) ∧
    (∀ k, get0 (clock self) k ≤ get0 (clock self') k) ∧
    get0 (clock self) (port self) + 1 ≤ get0 (clock self') (port self) ∧
    (∀ k, k ∉ items.*1 → k ≠ port self → clock self' !! k = clock self !! k).
Proof.
  assert (Hloop : ∀ (r : list (K * Z)) s,
    ∃ c', merge_incoming (Spec.int_items r) s = (set_clock c' s, Return tt) ∧
          (∀ k v, (k, v) ∈ r → v ≤ get0 c' k) ∧
          (∀ k, get0 (clock s) k ≤ get0 c' k) ∧
          (∀ k, k ∉ r.*1 → c' !! k = clock s !! k)).
  { induction r as [|[p v] r IH]; intros s.
    - exists (clock s). split; [by rewrite rpc_set_clock_id|].
      split; [by intros k v ?%elem_of_nil|]. split; [intros; lia | done].
    - destruct (IH (set_clock (<[p := Z.max (get0 (clock s) p) v]> (clock s)) s))
        as (c' & Hrun & Hdom & Hmono & Hother).
      simpl in Hmono, Hother.
      exists c'. split; [simpl; unfold_M; simpl; exact Hrun|].
      split; [|split].
      + intros k w [[= -> ->]|Hk]%elem_of_cons; [|by apply Hdom].
        specialize (Hmono p). rewrite get0_insert_eq in Hmono. lia.
      + intros k. specialize (Hmono k).
        destruct (decide (p = k)) as [<-|Hne].
        * rewrite get0_insert_eq in Hmono. lia.
        * by rewrite get0_insert_ne in Hmono.
      + intros k Hk. rewrite fmap_cons in Hk. cbn [fst] in Hk.
        apply not_elem_of_cons in Hk as [Hne Hk].
        rewrite (Hother k Hk). by apply lookup_insert_ne. }
  destruct (Hloop items self) as (c' & Hrun & Hdom & Hmono & Hother).
  eexists. split.
  { unfold receive_message, bump_own. unfold_M. simpl. by rewrite Hrun. }
  simpl. split; [done|]. split; [|split; [|split]].
  - intros k v Hk. specialize (Hdom k v Hk).
    destruct (decide (port self = k)) as [<-|Hne].
    + rewrite get0_insert_eq. lia.
    + by rewrite get0_insert_ne.
  - intros k. specialize (Hmono k).
    destruct (decide (port self = k)) as [<-|Hne].
    + rewrite get0_insert_eq. lia.
    + by rewrite get0_insert_ne.
  - rewrite get0_insert_eq. specialize (Hmono (port self)). lia.
  - intros k Hk Hne. rewrite lookup_insert_ne by done. by apply Hother.
Qed.

(** The items of a stamp are integer items, with every key once, and read
    back as the clock they were taken from. *)
Lemma stamp_items (c : gmap K Z) :
  ∃ r : list (K * Z),
    map_to_list (PyInt <$> c) = Spec.int_items r ∧
    NoDup r.*1 ∧
    list_to_map r = c.
Proof.
  set (l := map_to_list (PyInt <$> c)).
  exists (prod_map id Run.unint <$> l). split; [|split].
  - unfold Spec.int_items. rewrite <-list_fmap_compose.
    rewrite <-(list_fmap_id l) at 1. apply list_fmap_ext.
    intros i [k v] Hi. apply list_elem_of_lookup_2 in Hi.
    apply elem_of_map_to_list in Hi. rewrite lookup_fmap in Hi.
    destruct (c !! k); simplify_eq/=. done.
  - rewrite <-list_fmap_compose.
    assert (Hfst : (fst ∘ prod_map id Run.unint : K * pyval → K) = fst)
      by done.
    assert (Heq : (fst ∘ prod_map id Run.unint) <$> l = l.*1).
    { apply list_fmap_ext. by intros i [k v] _. }
    rewrite Heq. apply NoDup_fst_map_to_list.
  - rewrite list_to_map_fmap. unfold l. rewrite list_to_map_to_list.
    rewrite <-map_fmap_compose. rewrite <-(map_fmap_id c) at 2.
    apply map_fmap_ext. done.
Qed.

(** X17.  The message one node builds with [send_message], given to
    [receive_message] of a node without negative counters, is accepted:
    the sender's clock is unchanged, and the receiver's clock becomes the
    larger of the two at every key of either, with one more on the
    receiver's own port. *)
Theorem X17_rpc_send_then_receive (sender receiver : VectorProcess.t K)
    (remote_port : K) :
  Spec.nonneg (clock receiver) →
  ∃ message merged,
    send_message remote_port sender = (sender, Return message) ∧
    Spec.is_merge (clock receiver) (clock sender) merged ∧
    receive_message message receiver =
      (set_clock (<[port receiver := get0 merged (port receiver) + 1]> merged)
                 receiver,
       Return true).
Proof.
  intros Hnn. destruct (stamp_items (clock sender)) as (r & Hitems & Hnd & Hmap).
  destruct (rpc_receive_message_int r (Some (port sender)) receiver Hnd Hnn)
    as (merged & _ & Hm & Hrecv).
  eexists _, merged. split; [reflexivity|]. rewrite Hmap in Hm.
  split; [done|]. simpl. by rewrite Hitems.
Qed.

(** X18.  [n] rounds of the timer loop raise the own counter by exactly
    [n] and touch no other entry. *)
Theorem X18_rpc_ticks (n : nat) self :
  let after := run (replicate n Tick) self in
  port after = port self ∧
  get0 (clock after) (port self) = get0 (clock self) (port self) + Z.of_nat n ∧
  ∀ k, k ≠ port self → clock after !! k = clock self !! k.
Proof.
  revert self. induction n as [|n IH]; intros self after.
  - unfold after. simpl. split; [done|]. split; [lia | done].
  - unfold after.
    change (run (replicate (S n) Tick) self)
      with (run (replicate n Tick) (increment_clock self).1).
    destruct (IH (increment_clock self).1) as (Hp & Hown & Hother).
    unfold increment_clock, bump_own in *. unfold_M. simpl in *.
    split; [done|]. split.
    + rewrite Hown, get0_insert_eq. lia.
    + intros k Hk. rewrite (Hother k Hk). by apply lookup_insert_ne.
Qed.
End more_rpc.

(** ** The further properties on concrete clocks and messages *)

Lemma X1_witness :
  let a : gmap string Z := {[ "A" := 1 ]} in
  let b : gmap string Z := {[ "A" := 1; "B" := 1 ]} in
  let c : gmap string Z := {[ "A" := 1; "B" := 2; "C" := 1 ]} in
  VectorClock.compare elements b (VectorClock.mk "A" a) = Some (-1) ∧
  VectorClock.compare elements c (VectorClock.mk "B" b) = Some (-1) ∧
  VectorClock.compare elements c (VectorClock.mk "A" a) = Some (-1).
Proof.
  intros a b c.
  assert (H1 : VectorClock.compare elements b (VectorClock.mk "A" a) = Some (-1))
    by reflexivity.
  assert (H2 : VectorClock.compare elements c (VectorClock.mk "B" b) = Some (-1))
    by reflexivity.
  split; [exact H1|]. split; [exact H2|].
  exact (X1_before_transitive elements elements_order a b c "A" "B" H1 H2).
Defined.

Lemma X2_witness :
  let a := VectorClock.mk "A" ({[ "A" := 1 ]} : gmap string Z) in
  let b := VectorClock.mk "B" ({[ "B" := 1 ]} : gmap string Z) in
  VectorClock.compare elements (VectorClock.clock a) b =
  Z.opp <$> VectorClock.compare elements (VectorClock.clock b) a.
Proof.
  intros a b. exact (X2_compare_swap_negates elements elements_order a b).
Defined.

Lemma X3_witness :
  let self := VectorClock.mk 2 ({[ 2 := 0 ]} : gmap Z Z) in
  let r : gmap Z Z := {[ 1 := 5; 3 := 7 ]} in
  (∀ s, Demo.ascending s ≡ₚ elements s) ∧
  VectorClock.compare elements r self =
    VectorClock.compare Demo.ascending r self ∧
  VectorClock.update elements (PyInt <$> r) self =
    VectorClock.update Demo.ascending (PyInt <$> r) self.
Proof.
  intros self r. split; [exact ascending_order|].
  exact (X3_set_order_immaterial elements elements_order Demo.ascending
           r r self ascending_order).
Defined.

Lemma X4_witness :
  let self := VectorClock.init "B" None in
  let r : gmap string Z := {[ "A" := 1 ]} in
  "B" ∈ dom (VectorClock.clock self) ∧
  ∃ self',
    VectorClock.update elements (PyInt <$> r) self = (self', Return tt) ∧
    VectorClock.compare elements (VectorClock.clock self')
      (VectorClock.mk "A" r) = Some (-1) ∧
    VectorClock.compare elements (VectorClock.clock self') self = Some (-1).
Proof.
  intros self r.
  assert (H1 : VectorClock.process_id self ∈ dom (VectorClock.clock self))
    by by_computation.
  split; [exact H1|].
  exact (X4_update_after_both elements elements_order r self "A" H1).
Defined.

Lemma X5_witness :
  let self := VectorClock.mk "C" ({[ "C" := 2 ]} : gmap string Z) in
  let r1 : gmap string Z := {[ "A" := 3; "C" := 1 ]} in
  let r2 : gmap string Z := {[ "A" := 1; "B" := 4 ]} in
  "C" ∈ dom (VectorClock.clock self) ∧
  get0 r1 "C" ≤ get0 (VectorClock.clock self) "C" ∧
  get0 r2 "C" ≤ get0 (VectorClock.clock self) "C" ∧
  VectorClock.run elements
    [VectorClock.Update (PyInt <$> r1); VectorClock.Update (PyInt <$> r2)] self =
  VectorClock.run elements
    [VectorClock.Update (PyInt <$> r2); VectorClock.Update (PyInt <$> r1)] self.
Proof.
  intros self r1 r2.
  assert (H1 : VectorClock.process_id self ∈ dom (VectorClock.clock self))
    by by_computation.
  assert (H2 : get0 r1 (VectorClock.process_id self)
               ≤ get0 (VectorClock.clock self) (VectorClock.process_id self))
    by by_computation.
  assert (H3 : get0 r2 (VectorClock.process_id self)
               ≤ get0 (VectorClock.clock self) (VectorClock.process_id self))
    by by_computation.
  split; [exact H1|]. split; [exact H2|]. split; [exact H3|].
  destruct (X5_update_commutes elements elements_order r1 r2 self H1 H2 H3)
    as (final & Ha & Hb & _).
  exact (eq_trans Ha (eq_sym Hb)).
Defined.

Lemma X6_witness :
  let self := VectorClock.mk "A" ({[ "A" := 3; "B" := 1 ]} : gmap string Z) in
  "A" ∈ dom (VectorClock.clock self) ∧
  VectorClock.init "A" (Some (VectorClock.get_clock self)) = self.
Proof.
  intros self.
  assert (H1 : VectorClock.process_id self ∈ dom (VectorClock.clock self))
    by by_computation.
  split; [exact H1|].
  exact (proj2 (proj2 (X6_init_keeps_entries "A" ∅ self H1))).
Defined.

Lemma X7_witness :
  let m : VectorClockProcess.Message string :=
    {| VectorClockProcess.msg_content := Some "hello";
       VectorClockProcess.msg_sender := Some "A";
       VectorClockProcess.msg_vector_clock := Some {[ "A" := PyNone ]};
       VectorClockProcess.msg_target := None |} in
  let self := VectorClockProcess.run elements [VectorClockProcess.LocalEvent]
                (VectorClockProcess.init "B") in
  (VectorClockProcess.receive_message elements m self).2 = Raise TypeError.
Proof.
  intros m self.
  destruct (X7_receive_outcome elements elements_order "B"
              [VectorClockProcess.LocalEvent] m) as (_ & _ & Htype & _).
  apply (Htype (ltac:(by eexists)) _ eq_refl).
  exists "A", PyNone. by split.
Defined.

Lemma X9_witness :
  let good : VectorClockProcess.Message string :=
    {| VectorClockProcess.msg_content := Some "hello";
       VectorClockProcess.msg_sender := Some "A";
       VectorClockProcess.msg_vector_clock := Some {[ "A" := PyInt 1 ]};
       VectorClockProcess.msg_target := None |} in
  let calls := [VectorClockProcess.ReceiveMessage good;
                VectorClockProcess.LocalEvent;
                VectorClockProcess.SendMessage "reply" (Some "A");
                VectorClockProcess.ReceiveMessage good] in
  Forall (λ m, Run.acceptable m) (Run.received calls) ∧
  VectorClockProcess.log_message <$>
    VectorClockProcess.message_log
      (VectorClockProcess.run elements calls (VectorClockProcess.init "B")) =
  [good; good].
Proof.
  intros good calls.
  assert (H1 : Forall (λ m, Run.acceptable m) (Run.received calls))
    by (repeat constructor).
  split; [exact H1|].
  exact (proj2 (proj2 (X9_log_records_arrivals elements elements_order "B" calls))
           H1).
Defined.


Lemma X11_witness :
  let calls : list (VectorClockProcess.call string) :=
    [VectorClockProcess.LocalEvent;
     VectorClockProcess.SendMessage "hello" (Some "B")] in
  forallb (λ c, negb (Run.is_receive c)) calls = true ∧
  VectorClockProcess.get_clock_state
    (VectorClockProcess.run elements calls (VectorClockProcess.init "A")) =
    {[ "A" := 2 ]}.
Proof.
  intros calls.
  assert (H1 : forallb (λ c, negb (Run.is_receive c)) calls = true)
    by reflexivity.
  split; [exact H1|].
  exact (proj1 (X11_isolated_clock_counts elements "A" calls H1)).
Defined.

Lemma X12_witness :
  let calls : list (VectorClockProcess.call string) :=
    [VectorClockProcess.LocalEvent] in
  "A" ≠ "B" ∧ calls ≠ [] ∧
  forallb (λ c, negb (Run.is_receive c)) calls = true ∧
  VectorClockProcess.compare_with_other elements
    (VectorClockProcess.get_clock_state
       (VectorClockProcess.run elements calls (VectorClockProcess.init "B")))
    (VectorClockProcess.run elements calls (VectorClockProcess.init "A"))
  = Some 0.
Proof.
  intros calls.
  assert (H1 : "A" ≠ "B") by discriminate.
  assert (H2 : calls ≠ []) by discriminate.
  assert (H3 : forallb (λ c, negb (Run.is_receive c)) calls = true)
    by reflexivity.
  split; [exact H1|]. split; [exact H2|]. split; [exact H3|].
  exact (X12_isolated_concurrent elements elements_order "A" "B" calls calls
           H1 H2 H2 H3 H3).
Defined.


Lemma X17_witness :
  let sender := Demo.node8001 in
  let receiver := VectorProcess.init 8002 (Some [8001; 8002; 8003]) in
  Spec.nonneg (VectorProcess.clock receiver) ∧
  ∃ message merged,
    VectorProcess.send_message 8002 sender = (sender, Return message) ∧
    Spec.is_merge (VectorProcess.clock receiver) (VectorProcess.clock sender)
      merged ∧
    VectorProcess.receive_message message receiver =
      (VectorProcess.set_clock (<[8002 := get0 merged 8002 + 1]> merged) receiver,
       Return true).
Proof.
  intros sender receiver.
  assert (H1 : Spec.nonneg (VectorProcess.clock receiver)) by by_computation.
  split; [exact H1|].
  exact (X17_rpc_send_then_receive sender receiver 8002 H1).
Defined.

(** The run of [demo_vector_clocks()]: the final clocks are [{A: 2}],
    [{A: 1, B: 3}] and [{A: 2, B: 2, C: 2}], and the three comparisons print
    0, 0 and -1. *)
Example demo_vector_clocks_result :
  Run.demo_vector_clocks elements =
    Some (({[ "A" := 2 ]}, {[ "A" := 1; "B" := 3 ]},
           {[ "A" := 2; "B" := 2; "C" := 2 ]}),
          (Some 0, Some 0, Some (-1))).
Proof.
  assert (Heq : ∀ x y : option ((gmap string Z * gmap string Z * gmap string Z)
                                * (option Z * option Z * option Z)),
            bool_decide (x = y) = true → x = y)
    by (intros x y; apply bool_decide_eq_true_1).
  apply Heq. by vm_compute.
Qed.
